(** * myphysicslab: RandomLCG and CardioidPath

    A shallow embedding of [src/lab/util/RandomLCG.js] and
    [src/sims/roller/CardioidPath.js], and the properties of the
    specification proved about it.

    Layout: the JavaScript number model ([JS]), the generator
    ([RandomLCG]), the path ([CardioidPath]); then the theory of the
    number model, of the generator and of the path, and further properties
    of both classes. *)

From Stdlib Require Import ZArith NArith QArith Qround Qabs Qpower SpecFloat.
From Stdlib Require Import Lia Lqa List Bool Permutation.
From Stdlib Require String DecimalString DecimalZ DecimalPos.
Import ListNotations.

(* ################################################################# *)
(** * JavaScript numbers *)

(** A JavaScript number is an IEEE 754 binary64 value.  The finite ones are
    carried by the rational they denote; every arithmetic operation computes
    the exact rational result and rounds it to the nearest binary64 value,
    ties to even ([round64]), which is how IEEE 754 and ECMAScript define
    [+], [-], [*] and [/].  The sign of zero is not tracked: no operation of
    the two source files distinguishes [-0] from [0]. *)
Module JS.

Local Open Scope Q_scope.

Inductive number : Type :=
| NaN : number
| PosInf : number
| NegInf : number
| Fin (q : Q) : number.

(** [Qlog2 q] is the integer [l] with [2^l <= q < 2^(l+1)], for [0 < q]. *)
Definition Qlog2 (q : Q) : Z :=
  let l := (Z.log2 (Qnum q) - Z.log2 (Zpos (Qden q)))%Z in
  if Qle_bool (2 ^ l) q then l else (l - 1)%Z.

(** Exponent of the unit in the last place of the binade of [q]: 53 bits
    of significand, subnormals from [2^-1074]. *)
Definition ulp_exp (q : Q) : Z := Z.max (Qlog2 q - 52) (-1074).

(** Nearest integer, ties to even. *)
Definition rne (q : Q) : Z :=
  let f := Qfloor q in
  match Qcompare (q - inject_Z f) (1 # 2) with
  | Lt => f
  | Gt => (f + 1)%Z
  | Eq => if Z.even f then f else (f + 1)%Z
  end.

(** The multiple of the ulp of [q] nearest to [q], for [0 < q]. *)
Definition round_val (q : Q) : Q :=
  let e := ulp_exp q in
  inject_Z (rne (q / 2 ^ e)) * 2 ^ e.

Definition round_pos (q : Q) : number :=
  let v := round_val q in
  if Qle_bool (2 ^ 1024) v then PosInf else Fin (Qred v).

(** Unary minus. *)
Definition neg (x : number) : number :=
  match x with
  | NaN => NaN
  | PosInf => NegInf
  | NegInf => PosInf
  | Fin q => Fin (- q)
  end.

(** Round to nearest, ties to even, overflow to infinity. *)
Definition round64 (q : Q) : number :=
  match Qcompare q 0 with
  | Eq => Fin 0
  | Gt => round_pos q
  | Lt => neg (round_pos (- q))
  end.

(** An integer literal. *)
Definition of_Z (z : Z) : number := Fin (inject_Z z).

(** [x + y] *)
Definition add (x y : number) : number :=
  match x, y with
  | NaN, _ | _, NaN => NaN
  | PosInf, NegInf | NegInf, PosInf => NaN
  | PosInf, _ | _, PosInf => PosInf
  | NegInf, _ | _, NegInf => NegInf
  | Fin p, Fin q => round64 (p + q)
  end.

(** [x - y] *)
Definition sub (x y : number) : number := add x (neg y).

(** [x * y] *)
Definition mul (x y : number) : number :=
  match x, y with
  | NaN, _ | _, NaN => NaN
  | Fin p, Fin q => round64 (p * q)
  | Fin p, PosInf | PosInf, Fin p =>
      match Qcompare p 0 with Eq => NaN | Gt => PosInf | Lt => NegInf end
  | Fin p, NegInf | NegInf, Fin p =>
      match Qcompare p 0 with Eq => NaN | Gt => NegInf | Lt => PosInf end
  | PosInf, PosInf | NegInf, NegInf => PosInf
  | PosInf, NegInf | NegInf, PosInf => NegInf
  end.

(** [x / y] *)
Definition div (x y : number) : number :=
  match x, y with
  | NaN, _ | _, NaN => NaN
  | Fin p, Fin q =>
      match Qcompare q 0 with
      | Eq => match Qcompare p 0 with Eq => NaN | Gt => PosInf | Lt => NegInf end
      | _ => round64 (p / q)
      end
  | Fin _, PosInf | Fin _, NegInf => Fin 0
  | PosInf, Fin q => if Qle_bool 0 q then PosInf else NegInf
  | NegInf, Fin q => if Qle_bool 0 q then NegInf else PosInf
  | _, _ => NaN
  end.

(** Truncation toward zero. *)
Definition Qtrunc (q : Q) : Z :=
  if Qle_bool 0 q then Qfloor q else Qceiling q.

(** [x % y]: the remainder of the truncating division, which IEEE 754
    computes without rounding. *)
Definition rem (x y : number) : number :=
  match x, y with
  | Fin p, Fin q =>
      if Qeq_bool q 0 then NaN
      else Fin (Qred (p - q * inject_Z (Qtrunc (p / q))))
  | Fin p, PosInf | Fin p, NegInf => Fin p
  | _, _ => NaN
  end.

(** The order of the relational operators; [None] when an operand is NaN. *)
Definition compare (x y : number) : option comparison :=
  match x, y with
  | NaN, _ | _, NaN => None
  | PosInf, PosInf | NegInf, NegInf => Some Eq
  | PosInf, _ | _, NegInf => Some Gt
  | NegInf, _ | _, PosInf => Some Lt
  | Fin p, Fin q => Some (Qcompare p q)
  end.

(** [x < y] *)
Definition lt (x y : number) : bool :=
  match compare x y with Some Lt => true | _ => false end.

(** [x <= y] *)
Definition le (x y : number) : bool :=
  match compare x y with Some Lt | Some Eq => true | _ => false end.

(** [x >= y] *)
Definition ge (x y : number) : bool :=
  match compare x y with Some Gt | Some Eq => true | _ => false end.

(** [x == y] *)
Definition eq (x y : number) : bool :=
  match compare x y with Some Eq => true | _ => false end.

(** [x != y] *)
Definition ne (x y : number) : bool := negb (eq x y).

(** [Math.floor(x)] *)
Definition Math_floor (x : number) : number :=
  match x with
  | Fin q => Fin (inject_Z (Qfloor q))
  | _ => x
  end.

(** [Math.abs(x)] *)
Definition Math_abs (x : number) : number :=
  match x with
  | Fin q => Fin (Qabs q)
  | NegInf => PosInf
  | _ => x
  end.

(** [Math.pow(x, y)] for a finite base and a non-negative integer
    exponent, the only use the sources make of it ([Math.pow(2, 53)]);
    NaN stands for every other case. *)
Definition Math_pow (x y : number) : number :=
  match x, y with
  | Fin b, Fin e =>
      if Qeq_bool e (inject_Z (Qfloor e)) && Qle_bool 0 e
      then round64 (b ^ Qfloor e) else NaN
  | _, _ => NaN
  end.

(** [Math.PI], the binary64 value nearest to pi: [0x1.921fb54442d18p+1]. *)
Definition Math_PI : number := Fin (Qred (7074237752028440 # 2 ^ 51)).

(** Finite and equal to an integer. *)
Definition is_integer (x : number) : bool :=
  match x with
  | Fin q => Qeq_bool q (inject_Z (Qfloor q))
  | _ => false
  end.

(** The integer value of a number that has one. *)
Definition to_Z (x : number) : Z :=
  match x with
  | Fin q => Qfloor q
  | _ => 0%Z
  end.

(** Syntactic equality of numbers (same reduced fraction). *)
Definition same (x y : number) : bool :=
  match x, y with
  | NaN, NaN | PosInf, PosInf | NegInf, NegInf => true
  | Fin p, Fin q => Z.eqb (Qnum p) (Qnum q) && Pos.eqb (Qden p) (Qden q)
  | _, _ => false
  end.

(** The finite numbers of the model that are binary64 values: those that
    rounding maps to themselves. *)
Definition is_double (x : number) : bool :=
  match x with
  | Fin q => same (round64 q) (Fin q)
  | _ => true
  end.

(** The number that a binary64 float of the Standard Library's IEEE 754
    model ([SpecFloat]) denotes, and the float of an integer; the
    operations above are compared with [SFadd], [SFmul] and [SFdiv] on
    sample operands in [JSFacts]. *)
Definition of_SF (x : spec_float) : number :=
  match x with
  | S754_zero _ => Fin 0
  | S754_infinity false => PosInf
  | S754_infinity true => NegInf
  | S754_nan => NaN
  | S754_finite s m e =>
      Fin (Qred (inject_Z (if s then Zneg m else Zpos m) * 2 ^ e))
  end.

Definition SF_of_Z (z : Z) : spec_float := binary_normalize 53 1024 z 0 false.

(** ** Conversion to a string *)

Import String.
Local Open Scope string_scope.

End JS.

(* ################################################################# *)
(** * RandomLCG.js *)

Module RandomLCG.

Import JS.

(** What the code throws.  The message texts of the source are, in order:
    ['random seed must be 0 or greater ' + seed],
    ['random seed must be less than ' + m + ' was ' + seed],
    ['random seed must be an integer ' + seed], ['n must be positive'];
    [new Array(n)] throws a RangeError on an invalid length and
    [goog.asserts.assert] an AssertionError. *)
Inductive Error : Type :=
| SeedNegative (seed : number)
| SeedTooLarge (seed : number)
| SeedNotInteger (seed : number)
| NotPositive
| RangeError
| AssertionError.

(** The result of a call: a value, an exception, or (for the model of the
    [do ... while] loop only) no result within the given number of
    iterations. *)
Inductive outcome (A : Type) : Type :=
| Return (v : A)
| Throw (e : Error)
| OutOfFuel.

Arguments Return {A} v.
Arguments Throw {A} e.
Arguments OutOfFuel {A}.

(** The object: its one field. *)
Record t : Type := { seed_ : number }.

(** A method: it runs on [this] and leaves [this] behind, also when it
    throws. *)
Definition M (A : Type) : Type := t -> outcome A * t.

Definition ret {A : Type} (v : A) : M A := fun this => (Return v, this).

Definition throw {A : Type} (e : Error) : M A := fun this => (Throw e, this).

Definition bind {A B : Type} (c : M A) (k : A -> M B) : M B :=
  fun this =>
    match c this with
    | (Return v, this') => k v this'
    | (Throw e, this') => (Throw e, this')
    | (OutOfFuel, this') => (OutOfFuel, this')
    end.

(** A call of a static function from a method. *)
Definition lift {A : Type} (o : outcome A) : M A := fun this => (o, this).

(** [this.seed_] *)
Definition read_seed_ : M number := fun this => (Return (seed_ this), this).

(** [this.seed_ = x] *)
Definition write_seed_ (x : number) : M unit :=
  fun _ => (Return tt, {| seed_ := x |}).

Notation "x <- c1 ;; c2" := (bind c1 (fun x => c2))
  (at level 61, c1 at next level, right associativity).
Notation "c1 ;; c2" := (bind c1 (fun _ => c2))
  (at level 61, right associativity).

(** [RandomLCG.m = 0x100000000], the modulus *)
Definition m : number := of_Z 4294967296.

(** [RandomLCG.a = 1664525], the multiplier *)
Definition a : number := of_Z 1664525.

(** [RandomLCG.c = 1013904223], the increment *)
Definition c : number := of_Z 1013904223.

(** [RandomLCG.checkSeed] *)
Definition checkSeed (seed : number) : outcome unit :=
  if lt seed (of_Z 0) then Throw (SeedNegative seed)
  else if ge seed m then Throw (SeedTooLarge seed)
  else if ne seed (Math_floor seed) then Throw (SeedNotInteger seed)
  else Return tt.

(** The constructor.  [now] is what [goog.now()] returns at the call; an
    omitted argument is [None]. *)
Definition constructor (now : number) (seed : option number) : outcome t :=
  let seed := match seed with None => now | Some s => s end in
  let seed := rem (Math_floor (Math_abs seed)) m in
  let this := {| seed_ := seed |} in
  match checkSeed (seed_ this) with
  | Return _ =>
      if lt (add (mul (sub m (of_Z 1)) a) c) (Math_pow (of_Z 2) (of_Z 53))
      then Return this
      else Throw AssertionError
  | Throw e => Throw e
  | OutOfFuel => OutOfFuel
  end.

(** [getModulus] *)
Definition getModulus : M number := ret m.

(** [getSeed] *)
Definition getSeed : M number := read_seed_.

(** [nextInt_]; [DEBUG_RANDOM_DEEP] is [false]. *)
Definition nextInt_ : M number :=
  seed <- read_seed_ ;;
  let r := add (mul seed a) c in
  let m := RandomLCG.m in
  write_seed_ (sub r (mul (Math_floor (div r m)) m)) ;;
  seed <- read_seed_ ;;
  lift (checkSeed seed) ;;
  read_seed_.

(** [nextFloat]; [DEBUG_RANDOM] is [false]. *)
Definition nextFloat : M number :=
  x <- nextInt_ ;;
  ret (div x (sub m (of_Z 1))).

(** [nextInt] *)
Definition nextInt : M number :=
  x <- nextInt_ ;;
  ret x.

(** [nextRange_] *)
Definition nextRange_ (n : number) : M number :=
  if le n (of_Z 0) then throw NotPositive
  else
    x <- nextInt_ ;;
    let randomUnder1 := div x m in
    ret (Math_floor (mul randomUnder1 n)).

(** [nextRange] *)
Definition nextRange (n : number) : M number :=
  x <- nextRange_ n ;;
  ret x.

(** [setSeed] *)
Definition setSeed (seed : number) : M unit :=
  lift (checkSeed seed) ;;
  write_seed_ seed.

(** ** Arrays *)

(** An array of numbers; [None] is [undefined] (a hole of [new Array(n)],
    or an element read outside the array). *)
Definition Array : Type := list (option number).

(** [new Array(n)]: [n] holes when [n] is an integer in [0, 2^32 - 1], a
    RangeError otherwise. *)
Definition new_Array (n : number) : outcome Array :=
  if is_integer n && le (of_Z 0) n && le n (of_Z 4294967295)
  then Return (repeat None (Z.to_nat (to_Z n)))
  else Throw RangeError.

(** [arr[i]] *)
Definition get (arr : Array) (i : Z) : option number :=
  if (i <? 0)%Z then None else nth (Z.to_nat i) arr None.

(** Replace the element at a position inside the list. *)
Fixpoint update (arr : Array) (i : nat) (v : option number) : Array :=
  match arr, i with
  | [], _ => []
  | _ :: tl, O => v :: tl
  | hd :: tl, S i' => hd :: update tl i' v
  end.

(** [arr[i] = v] for an index [0 <= i]: inside the array the element is
    replaced, beyond its end the array grows, with holes in between. *)
Definition set_at (arr : Array) (i : Z) (v : option number) : Array :=
  if (i <? Z.of_nat (length arr))%Z then update arr (Z.to_nat i) v
  else arr ++ repeat None (Z.to_nat i - length arr) ++ [v].

(** [x < 0] for a value that may be [undefined]: [undefined] converts to
    NaN, and the comparison is false. *)
Definition negative (x : option number) : bool :=
  match x with
  | Some v => lt v (of_Z 0)
  | None => false
  end.

(** ** randomInts *)

(** The first loop, [for (var i=0; i<n; i++) { set[i] = -1; src[i] = i; }],
    from [i] on with [count] rounds left.  [n] is a valid array length
    when the loop is reached, so that it runs for [i = 0, ..., n-1]. *)
Fixpoint fill (count : nat) (i : Z) (set src : Array) : Array * Array :=
  match count with
  | O => (set, src)
  | S count' =>
      fill count' (i + 1)%Z (set_at set i (Some (of_Z (-1)))) (set_at src i (Some (of_Z i)))
  end.

(** The variables of the second loop. *)
Record vars : Type := {
  v_set : Array;
  v_src : Array;
  v_m : number;
  v_setCount : Z
}.

(** The inner loop, [for (var j=0; j<n; j++) ...], from [j] on with [count]
    rounds left: it moves the [k]'th number still in [src] to [set]. *)
Fixpoint pick (count : nat) (j : Z) (k : number) (srcCount : Z)
    (set src : Array) (setCount : Z) : Array * Array * Z :=
  match count with
  | O => (set, src, setCount)
  | S count' =>
      if negative (get src j) then
        (* continue *)
        pick count' (j + 1)%Z k srcCount set src setCount
      else if eq (of_Z srcCount) k then
        (* set[setCount++] = src[j]; src[j] = -1; break *)
        (set_at set setCount (get src j), set_at src j (Some (of_Z (-1))),
         (setCount + 1)%Z)
      else
        pick count' (j + 1)%Z k (srcCount + 1)%Z set src setCount
  end.

(** The [do ... while (set[n-1] < 0)] loop, cut off after [fuel] rounds. *)
Fixpoint do_while (fuel : nat) (n : Z) (v : vars) : M Array :=
  match fuel with
  | O => fun this => (OutOfFuel, this)
  | S fuel' =>
      (* var k = this.nextRange_(m--) *)
      k <- nextRange_ (v_m v) ;;
      let m := sub (v_m v) (of_Z 1) in
      let '(set, src, setCount) :=
        pick (Z.to_nat n) 0 k 0 (v_set v) (v_src v) (v_setCount v) in
      if negative (get set (n - 1)) then
        do_while fuel' n
          {| v_set := set; v_src := src; v_m := m; v_setCount := setCount |}
      else ret set
  end.

(** [randomInts]; [DEBUG_RANDOM] is [false].  The second loop draws with
    [m = n, n-1, ...] and [nextRange_] throws at [m = 0], so that it makes at
    most [n + 1] rounds (see [randomInts_total]). *)
Definition randomInts (n : number) : M Array :=
  set <- lift (new_Array n) ;;
  src <- lift (new_Array n) ;;
  let count := Z.to_nat (to_Z n) in
  let '(set, src) := fill count 0 set src in
  do_while (S count) (to_Z n)
    {| v_set := set; v_src := src; v_m := n; v_setCount := 0 |}.

(** ** Sequences of calls *)

Inductive call : Type :=
| GetModulus
| GetSeed
| NextInt
| NextFloat
| NextRange (n : number)
| RandomInts (n : number).

Inductive value : Type :=
| Number (x : number)
| Numbers (arr : Array).

Definition map_M {A B : Type} (f : A -> B) (c : M A) : M B :=
  x <- c ;; ret (f x).

(** One call on the object. *)
Definition perform (op : call) : M value :=
  match op with
  | GetModulus => map_M Number getModulus
  | GetSeed => map_M Number getSeed
  | NextInt => map_M Number nextInt
  | NextFloat => map_M Number nextFloat
  | NextRange n => map_M Number (nextRange n)
  | RandomInts n => map_M Numbers (randomInts n)
  end.

(** A caller that makes the calls in order on one object, catching what
    they throw: the outcome of every call, and the object at the end. *)
Fixpoint drive (ops : list call) (this : t) : list (outcome value) * t :=
  match ops with
  | [] => ([], this)
  | op :: ops' =>
      let '(o, this') := perform op this in
      let '(os, this'') := drive ops' this' in
      (o :: os, this'')
  end.

(** A run: the construction of an object with a seed, then the calls. *)
Definition session (now : number) (seed : option number) (ops : list call)
    : outcome (list (outcome value) * t) :=
  match constructor now seed with
  | Return this => Return (drive ops this)
  | Throw e => Throw e
  | OutOfFuel => OutOfFuel
  end.

(** The state transition alone. *)
Definition advance (this : t) : t := snd (nextInt_ this).

(** ** toString *)

Import String.
Local Open Scope string_scope.

End RandomLCG.

(* ################################################################# *)
(** * CardioidPath.js *)

Module CardioidPath.

Import JS.
Import String.

Local Open Scope string_scope.

(** Modelled from the spec: [AbstractPath] (the superclass, not under
    [src/]) holds the immutable shape parameters of a path, "parameter-range
    bounds, closed-loop flag" and its names; the record keeps the five
    arguments of [AbstractPath.call(this, name, localName, start, finish,
    closedLoop)]. *)
Record AbstractPath : Type := {
  name_ : String.string;
  localName_ : String.string;
  startTValue_ : number;
  finishTValue_ : number;
  closedLoop_ : bool
}.

(** The object: the superclass part and the radius [a_]. *)
Record t : Type := {
  super : AbstractPath;
  a_ : number
}.

(** A method: it runs on [this] and leaves [this] behind. *)
Definition method (A : Type) : Type := t -> A * t.

(** [CardioidPath.en.NAME] and [CardioidPath.de_strings.NAME] *)
Definition en_NAME : String.string := "Cardioid".
Definition de_NAME : String.string := "Cardioid".

(** [CardioidPath.i18n.NAME], by [goog.LOCALE] *)
Definition i18n_NAME (LOCALE : String.string) : String.string :=
  if String.eqb LOCALE "de" then de_NAME else en_NAME.

(** [s || d] for an optional string: [undefined] and the empty string are
    falsy. *)
Definition or_default (s : option String.string) (d : String.string) : String.string :=
  match s with
  | Some v => if String.eqb v "" then d else v
  | None => d
  end.

(** The constructor; an omitted argument is [None]. *)
Definition constructor (LOCALE : String.string) (radius : number)
    (start finish : option number) (closedLoop : option bool)
    (name localName : option String.string) : t :=
  let start := match start with Some v => v | None => neg Math_PI end in
  let finish := match finish with Some v => v | None => Math_PI end in
  let closedLoop := match closedLoop with Some b => b | None => false end in
  let name := or_default name en_NAME in
  let localName := or_default localName (i18n_NAME LOCALE) in
  {| super := {| name_ := name; localName_ := localName;
                 startTValue_ := start; finishTValue_ := finish;
                 closedLoop_ := closedLoop |};
     a_ := radius |}.

Section Trigonometry.

(** [Math.sin] and [Math.cos], which ECMAScript leaves to the
    implementation: any two functions on numbers. *)
Variables Math_sin Math_cos : number -> number.

(** [x_func] *)
Definition x_func (t0 : number) : method number :=
  fun this =>
    let c := Math_cos t0 in
    (mul (mul (a_ this) (Math_sin t0)) (add (of_Z 1) c), this).

(** [y_func] *)
Definition y_func (t0 : number) : method number :=
  fun this =>
    let c := Math_cos t0 in
    (mul (mul (neg (a_ this)) c) (add (of_Z 1) c), this).

(** The cardioid of the class comment before the rotation,
    [x = a cos t (1 + cos t)] and [y = a sin t (1 + cos t)]. *)
Definition x_unrotated (radius t0 : number) : number :=
  mul (mul radius (Math_cos t0)) (add (of_Z 1) (Math_cos t0)).

Definition y_unrotated (radius t0 : number) : number :=
  mul (mul radius (Math_sin t0)) (add (of_Z 1) (Math_cos t0)).

End Trigonometry.

End CardioidPath.

(* ################################################################# *)
(** * The words of the specification *)

Module Spec.

Import JS.

Local Open Scope Z_scope.

(** The recurrence: [seed' = (seed * a + c) mod m]. *)
Definition lcg (s : Z) : Z := (s * 1664525 + 1013904223) mod 4294967296.

(** "[seed] is an integer in [[0, m)]", for a number. *)
Definition is_seed (x : number) : bool :=
  match x with
  | Fin q =>
      Qle_bool 0 q && negb (Qle_bool 4294967296 q)
      && Qeq_bool q (inject_Z (Qfloor q))
  | _ => false
  end.

(** The invariant of the generator state. *)
Definition valid (this : RandomLCG.t) : Prop :=
  is_seed (RandomLCG.seed_ this) = true.

(** [1 + a + ... + a^(n-1)] for the multiplier [a]: the coefficient of the
    increment after [n] steps of the recurrence. *)
Fixpoint geom (n : nat) : Z :=
  match n with
  | O => 0
  | S n' => 1 + 1664525 * geom n'
  end.
(** An array element holding an integer. *)
Definition element (z : Z) : option number := Some (of_Z z).

(** [0, 1, ..., n-1] *)
Definition integers (n : nat) : list Z := map Z.of_nat (seq 0 n).

Definition nonneg (z : Z) : bool := 0 <=? z.

(** The transition backwards: [1664525 * 4276115653 = 1 (mod 2^32)]. *)
Definition prev (x : Z) : Z := ((x - 1013904223) * 4276115653) mod 4294967296.

(** The least draw [x] of [[0, m)] with [k <= floor(x * n / m)]:
    [ceil(k * m / n)]. *)
Definition first_draw (n k : Z) : Z := (k * 4294967296 + n - 1) / n.




(** The selection of the specification: "at each of the [n] steps, draw
    [nextRange(remaining_count)] to pick the k-th still-available index
    (counting only not-yet-placed entries in original order) and move it
    into the output at the next position; decrement remaining_count". *)
Fixpoint selection (steps : nat) (available : list Z) (this : RandomLCG.t)
    : list Z * RandomLCG.t :=
  match steps with
  | O => ([], this)
  | S steps' =>
      match RandomLCG.nextRange (JS.of_Z (Z.of_nat (length available))) this with
      | (RandomLCG.Return k, this') =>
          let i := Z.to_nat (JS.to_Z k) in
          let '(output, this'') :=
            selection steps' (firstn i available ++ skipn (S i) available) this' in
          (nth i available 0 :: output, this'')
      | (_, this') => ([], this')
      end
  end.

End Spec.

(* ################################################################# *)
(** * Theory of the number model *)

Module JSFacts.

Import JS.

Local Open Scope Q_scope.

(** ** Powers of two *)

Lemma pow2_pos (e : Z) : 0 < 2 ^ e.
Proof. apply Qpower_0_lt. reflexivity. Qed.

Lemma pow2_add (a b : Z) : 2 ^ (a + b) == 2 ^ a * 2 ^ b.
Proof. apply Qpower_plus. discriminate. Qed.

Lemma pow2_sub (a b : Z) : 2 ^ (a - b) == 2 ^ a / 2 ^ b.
Proof. apply Qpower_minus. discriminate. Qed.

Lemma pow2_le (a b : Z) : (a <= b)%Z -> 2 ^ a <= 2 ^ b.
Proof. intros. apply Qpower_le_compat_l; [assumption | discriminate]. Qed.

Lemma pow2_lt (a b : Z) : (a < b)%Z -> 2 ^ a < 2 ^ b.
Proof. intros. apply Qpower_lt_compat_l; [assumption | reflexivity]. Qed.

Lemma pow2_lt_inv (a b : Z) : 2 ^ a < 2 ^ b -> (a < b)%Z.
Proof.
  intros. apply Qpower_lt_compat_l_inv with (q := 2); [assumption | reflexivity].
Qed.

Lemma pow2_inject (k : Z) : (0 <= k)%Z -> inject_Z (2 ^ k) == 2 ^ k.
Proof. intros. apply (Zpower_Qpower 2 k). assumption. Qed.

Lemma pow2_succ (a : Z) : 2 ^ (a + 1) == 2 * 2 ^ a.
Proof. rewrite pow2_add. change (2 ^ 1) with 2. ring. Qed.

(** ** The binade of a positive rational *)

Lemma Qlog2_spec (q : Q) : 0 < q -> 2 ^ Qlog2 q <= q /\ q < 2 ^ (Qlog2 q + 1).
Proof.
  intros Hq. unfold Qlog2.
  destruct q as [n d]. simpl Qnum. simpl Qden.
  assert (Hn : (0 < n)%Z) by (unfold Qlt in Hq; simpl in Hq; lia).
  pose proof (Z.log2_spec n Hn) as [Hn1 Hn2].
  pose proof (Z.log2_spec (Zpos d) eq_refl) as [Hd1 Hd2].
  pose proof (Z.log2_nonneg n) as Ha. pose proof (Z.log2_nonneg (Zpos d)) as Hb.
  set (a := Z.log2 n) in *. set (b := Z.log2 (Z.pos d)) in *.
  assert (En : inject_Z (2 ^ a) <= inject_Z n) by (rewrite <- Zle_Qle; exact Hn1).
  assert (En' : inject_Z n < inject_Z (2 ^ (Z.succ a))) by (rewrite <- Zlt_Qlt; exact Hn2).
  assert (Ed : inject_Z (2 ^ b) <= inject_Z (Zpos d)) by (rewrite <- Zle_Qle; exact Hd1).
  assert (Ed' : inject_Z (Zpos d) < inject_Z (2 ^ (Z.succ b))) by (rewrite <- Zlt_Qlt; exact Hd2).
  rewrite pow2_inject in En, En', Ed, Ed' by lia.
  assert (Hq' : n # d == inject_Z n / inject_Z (Zpos d)) by apply Qmake_Qdiv.
  assert (Hdpos : 0 < inject_Z (Zpos d)) by reflexivity.
  unfold Z.succ in *.
  rewrite pow2_succ in En', Ed'.
  pose proof (pow2_pos a). pose proof (pow2_pos b).
  assert (Hlow : 2 ^ (a - b - 1) <= n # d).
  { rewrite Hq'. apply Qle_shift_div_l; [assumption|].
    replace (a - b - 1)%Z with (a - (b + 1))%Z by lia.
    rewrite pow2_sub, pow2_succ.
    setoid_replace (2 ^ a / (2 * 2 ^ b) * inject_Z (Z.pos d))
      with ((2 ^ a * inject_Z (Z.pos d)) / (2 * 2 ^ b)) by (field; lra).
    apply Qle_shift_div_r; [lra|]. nra. }
  assert (Hhigh : n # d < 2 ^ (a - b + 1)).
  { rewrite Hq'. apply Qlt_shift_div_r; [assumption|].
    replace (a - b + 1)%Z with ((a + 1) - b)%Z by lia.
    rewrite pow2_sub, pow2_succ.
    setoid_replace (2 * 2 ^ a / 2 ^ b * inject_Z (Z.pos d))
      with ((2 * 2 ^ a * inject_Z (Z.pos d)) / 2 ^ b) by (field; lra).
    apply Qlt_shift_div_l; [lra|]. nra. }
  destruct (Qle_bool (2 ^ (a - b)) (n # d)) eqn:E.
  - apply Qle_bool_iff in E. split; assumption.
  - assert (~ 2 ^ (a - b) <= n # d) by (rewrite <- Qle_bool_iff; congruence).
    replace (a - b - 1 + 1)%Z with (a - b)%Z by lia.
    split; [assumption | apply Qnot_le_lt; assumption].
Qed.

Lemma Qlog2_le (p q : Q) : 0 < p -> p <= q -> (Qlog2 p <= Qlog2 q)%Z.
Proof.
  intros Hp Hpq.
  destruct (Qlog2_spec p Hp) as [H1 _].
  destruct (Qlog2_spec q) as [_ H2]; [lra|].
  assert (Qlog2 p < Qlog2 q + 1)%Z by (apply pow2_lt_inv; lra).
  lia.
Qed.

Lemma Qlog2_lt_pow2 (q : Q) (e : Z) : 0 < q -> q < 2 ^ e -> (Qlog2 q < e)%Z.
Proof.
  intros Hq H. destruct (Qlog2_spec q Hq) as [H1 _].
  apply pow2_lt_inv; lra.
Qed.

Lemma Qlog2_ge_pow2 (q : Q) (e : Z) : 2 ^ e <= q -> (e <= Qlog2 q)%Z.
Proof.
  intros H. pose proof (pow2_pos e).
  destruct (Qlog2_spec q) as [_ H2]; [lra|].
  assert (e < Qlog2 q + 1)%Z by (apply pow2_lt_inv; lra).
  lia.
Qed.

Lemma ulp_exp_ge (q : Q) : (-1074 <= ulp_exp q)%Z.
Proof. unfold ulp_exp. lia. Qed.

Lemma ulp_exp_le (p q : Q) : 0 < p -> p <= q -> (ulp_exp p <= ulp_exp q)%Z.
Proof.
  intros Hp Hpq. unfold ulp_exp. pose proof (Qlog2_le p q Hp Hpq). lia.
Qed.

(** ** Nearest integer *)

Lemma rne_Z (q : Q) (z : Z) : q == inject_Z z -> rne q = z.
Proof.
  intros H. unfold rne.
  rewrite (Qfloor_comp _ _ H), Qfloor_Z.
  destruct (Qcompare_spec (q - inject_Z z) (1 # 2)) as [E|E|E]; try lra.
  reflexivity.
Qed.

Lemma rne_floor (q : Q) : (Qfloor q <= rne q <= Qfloor q + 1)%Z.
Proof.
  unfold rne.
  destruct (Qcompare (q - inject_Z (Qfloor q)) (1 # 2)); try lia.
  destruct (Z.even (Qfloor q)); lia.
Qed.

Lemma rne_near (q : Q) :
  q - (1 # 2) <= inject_Z (rne q) /\ inject_Z (rne q) <= q + (1 # 2).
Proof.
  pose proof (Qfloor_le q) as Hl. pose proof (Qlt_floor q) as Hu.
  rewrite inject_Z_plus in Hu. change (inject_Z 1) with 1 in Hu.
  unfold rne.
  destruct (Qcompare_spec (q - inject_Z (Qfloor q)) (1 # 2)) as [E|E|E].
  - destruct (Z.even (Qfloor q));
      [|rewrite inject_Z_plus; change (inject_Z 1) with 1]; lra.
  - lra.
  - rewrite inject_Z_plus; change (inject_Z 1) with 1; lra.
Qed.

Lemma rne_le_Z (q : Q) (z : Z) : q <= inject_Z z -> (rne q <= z)%Z.
Proof.
  intros H.
  destruct (Qeq_dec q (inject_Z z)) as [E|E].
  - rewrite (rne_Z _ _ E). lia.
  - assert (Hlt : q < inject_Z z) by (apply Qle_lteq in H; tauto).
    pose proof (Qfloor_le q) as Hl.
    assert (Qfloor q < z)%Z by (rewrite Zlt_Qlt; lra).
    pose proof (rne_floor q). lia.
Qed.

Lemma rne_ge_Z (q : Q) (z : Z) : inject_Z z <= q -> (z <= rne q)%Z.
Proof.
  intros H. pose proof (rne_floor q).
  assert (z <= Qfloor q)%Z; [|lia].
  rewrite <- (Qfloor_Z z). apply Qfloor_resp_le. assumption.
Qed.

(** ** Rounding *)

Lemma Qred_inject_Z (z : Z) : Qred (inject_Z z) = inject_Z z.
Proof.
  unfold Qred, inject_Z.
  pose proof (Z.ggcd_gcd z 1) as Hg.
  pose proof (Z.ggcd_correct_divisors z 1) as Hd.
  destruct (Z.ggcd z 1) as [g [r1 r2]]. simpl in *.
  rewrite Z.gcd_1_r in Hg. subst g. destruct Hd as [H1 H2].
  replace r1 with z by lia. replace r2 with 1%Z by lia. reflexivity.
Qed.

Lemma round_val_nonneg (q : Q) : 0 < q -> 0 <= round_val q.
Proof.
  intros Hq. unfold round_val.
  pose proof (pow2_pos (ulp_exp q)) as He.
  assert (0 <= rne (q / 2 ^ ulp_exp q))%Z.
  { apply rne_ge_Z. change (inject_Z 0) with 0.
    apply Qle_shift_div_l; lra. }
  assert (0 <= inject_Z (rne (q / 2 ^ ulp_exp q))).
  { change 0 with (inject_Z 0). rewrite <- Zle_Qle. assumption. }
  nra.
Qed.

(** The rounded value is within half an ulp. *)
Lemma round_val_near (q : Q) :
  q - 2 ^ ulp_exp q * (1 # 2) <= round_val q /\
  round_val q <= q + 2 ^ ulp_exp q * (1 # 2).
Proof.
  unfold round_val.
  pose proof (pow2_pos (ulp_exp q)) as He.
  destruct (rne_near (q / 2 ^ ulp_exp q)) as [H1 H2].
  assert (Hq : q == q / 2 ^ ulp_exp q * 2 ^ ulp_exp q) by (field; lra).
  revert H1 H2 Hq.
  generalize (inject_Z (rne (q / 2 ^ ulp_exp q))) (q / 2 ^ ulp_exp q).
  generalize dependent (2 ^ ulp_exp q).
  intros u Hu s y H1 H2 Hq. split; nra.
Qed.

(** Rounding does not cross a multiple of the ulp. *)
Lemma round_val_le_multiple (q : Q) (z : Z) :
  q <= inject_Z z * 2 ^ ulp_exp q -> round_val q <= inject_Z z * 2 ^ ulp_exp q.
Proof.
  intros H. unfold round_val.
  pose proof (pow2_pos (ulp_exp q)) as He.
  assert (rne (q / 2 ^ ulp_exp q) <= z)%Z.
  { apply rne_le_Z. apply Qle_shift_div_r; lra. }
  assert (inject_Z (rne (q / 2 ^ ulp_exp q)) <= inject_Z z)
    by (rewrite <- Zle_Qle; assumption).
  nra.
Qed.

(** A dyadic rational with a significand below [2^53] and an exponent of
    at least [-1074] is its own rounding. *)
Lemma round_val_exact (q : Q) (z k : Z) :
  (0 < z < 2 ^ 53)%Z -> (-1074 <= k)%Z -> q == inject_Z z * 2 ^ k ->
  round_val q == q.
Proof.
  intros Hz Hk Hq. unfold round_val.
  pose proof (pow2_pos k) as Hk2.
  assert (Hzq : 0 < inject_Z z) by (rewrite (Zlt_Qlt 0 z) in Hz; tauto).
  assert (Hzq' : inject_Z z < 2 ^ 53).
  { rewrite <- pow2_inject by lia. rewrite <- Zlt_Qlt. lia. }
  assert (Hqpos : 0 < q) by (rewrite Hq; nra).
  assert (Hlt : q < 2 ^ (53 + k)).
  { rewrite Hq, pow2_add. nra. }
  pose proof (Qlog2_lt_pow2 q _ Hqpos Hlt) as Hlog.
  set (e := ulp_exp q).
  assert (He : (-1074 <= e <= k)%Z) by (unfold e, ulp_exp; lia).
  assert (Hsig : q / 2 ^ e == inject_Z (z * 2 ^ (k - e))).
  { rewrite inject_Z_mult, pow2_inject by lia. rewrite Hq, pow2_sub.
    field. pose proof (pow2_pos e). lra. }
  rewrite (rne_Z _ _ Hsig).
  rewrite <- Hsig. field. pose proof (pow2_pos e). lra.
Qed.

Lemma round_pos_exact (q : Q) (z k : Z) :
  (0 < z < 2 ^ 53)%Z -> (-1074 <= k <= 971)%Z -> q == inject_Z z * 2 ^ k ->
  round_pos q = Fin (Qred q).
Proof.
  intros Hz Hk Hq. unfold round_pos.
  assert (Hv : round_val q == q) by (apply (round_val_exact q z k); tauto || lia).
  assert (Hlt : q < 2 ^ 1024).
  { assert (inject_Z z < 2 ^ 53).
    { rewrite <- pow2_inject by lia. rewrite <- Zlt_Qlt. lia. }
    assert (0 < inject_Z z) by (rewrite (Zlt_Qlt 0 z) in Hz; tauto).
    pose proof (pow2_pos k). pose proof (pow2_le (53 + k) 1024 ltac:(lia)) as Hle.
    rewrite pow2_add in Hle. rewrite Hq. nra. }
  assert (Hno : Qle_bool (2 ^ 1024) (round_val q) = false).
  { apply not_true_is_false. rewrite Qle_bool_iff, Hv. lra. }
  rewrite Hno. f_equal. apply Qred_complete. exact Hv.
Qed.

Lemma round64_exact (q : Q) (z k : Z) :
  (- 2 ^ 53 < z < 2 ^ 53)%Z -> (-1074 <= k <= 971)%Z -> q == inject_Z z * 2 ^ k ->
  round64 q = Fin (Qred q).
Proof.
  intros Hz Hk Hq. unfold round64.
  pose proof (pow2_pos k) as Hk2.
  destruct (Qcompare_spec q 0) as [E|E|E].
  - f_equal. symmetry. apply (Qred_complete q 0). exact E.
  - assert (Hneg : (0 < - z < 2 ^ 53)%Z).
    { assert (z < 0)%Z; [|lia].
      rewrite Zlt_Qlt. change (inject_Z 0) with 0. rewrite Hq in E. nra. }
    rewrite (round_pos_exact (- q) (- z) k Hneg Hk).
    + unfold neg. f_equal. rewrite Qred_opp.
      destruct (Qred q) as [n d]. unfold Qopp. simpl.
      rewrite Z.opp_involutive. reflexivity.
    + rewrite inject_Z_opp, Hq. ring.
  - assert (Hpos : (0 < z < 2 ^ 53)%Z).
    { assert (0 < z)%Z; [|lia].
      rewrite Zlt_Qlt. change (inject_Z 0) with 0. rewrite Hq in E. nra. }
    apply (round_pos_exact q z k Hpos Hk Hq).
Qed.

(** Integers below [2^53] in magnitude are binary64 values. *)
Lemma round64_int (q : Q) (z : Z) :
  (- 2 ^ 53 < z < 2 ^ 53)%Z -> q == inject_Z z -> round64 q = of_Z z.
Proof.
  intros Hz Hq.
  rewrite (round64_exact q z 0 Hz ltac:(lia)).
  - unfold of_Z. f_equal. rewrite (Qred_complete _ _ Hq). apply Qred_inject_Z.
  - rewrite Hq. change (2 ^ 0) with 1. ring.
Qed.

(** ** Arithmetic on integers *)

Lemma add_int (x y : Z) :
  (- 2 ^ 53 < x + y < 2 ^ 53)%Z -> add (of_Z x) (of_Z y) = of_Z (x + y).
Proof.
  intros H. unfold add, of_Z. apply round64_int; [assumption|].
  rewrite inject_Z_plus. reflexivity.
Qed.

Lemma neg_int (x : Z) : neg (of_Z x) = of_Z (- x).
Proof. reflexivity. Qed.

Lemma sub_int (x y : Z) :
  (- 2 ^ 53 < x - y < 2 ^ 53)%Z -> sub (of_Z x) (of_Z y) = of_Z (x - y).
Proof.
  intros H. unfold sub. rewrite neg_int. apply add_int. lia.
Qed.

Lemma mul_int (x y : Z) :
  (- 2 ^ 53 < x * y < 2 ^ 53)%Z -> mul (of_Z x) (of_Z y) = of_Z (x * y).
Proof.
  intros H. unfold mul, of_Z. apply round64_int; [assumption|].
  rewrite inject_Z_mult. reflexivity.
Qed.

(** Division by [2^32] is exact. *)
Lemma div_pow2_32 (x : Z) :
  (0 <= x < 2 ^ 53)%Z ->
  div (of_Z x) (of_Z 4294967296) = Fin (Qred (inject_Z x / inject_Z 4294967296)).
Proof.
  intros H. unfold div, of_Z.
  change (Qcompare (inject_Z 4294967296) 0) with Gt. cbv iota.
  apply (round64_exact _ x (-32)); [lia | lia |].
  reflexivity.
Qed.

Lemma floor_div_int (x y : Z) :
  Math_floor (Fin (Qred (inject_Z x / inject_Z y))) = of_Z (x / y).
Proof.
  unfold Math_floor, of_Z. f_equal. f_equal.
  rewrite (Qfloor_comp _ _ (Qred_correct _)). symmetry. apply Zdiv_Qdiv.
Qed.

(** ** Comparisons of integers *)

Lemma compare_int (x y : Z) : compare (of_Z x) (of_Z y) = Some (Z.compare x y).
Proof.
  unfold compare, of_Z, Qcompare. simpl. rewrite !Z.mul_1_r. reflexivity.
Qed.

Lemma lt_int (x y : Z) : lt (of_Z x) (of_Z y) = (x <? y)%Z.
Proof. unfold lt. rewrite compare_int. unfold Z.ltb. destruct (x ?= y)%Z; reflexivity. Qed.

Lemma le_int (x y : Z) : le (of_Z x) (of_Z y) = (x <=? y)%Z.
Proof. unfold le. rewrite compare_int. unfold Z.leb. destruct (x ?= y)%Z; reflexivity. Qed.

Lemma ge_int (x y : Z) : ge (of_Z x) (of_Z y) = (x >=? y)%Z.
Proof. unfold ge. rewrite compare_int. unfold Z.geb. destruct (x ?= y)%Z; reflexivity. Qed.

Lemma eq_int (x y : Z) : eq (of_Z x) (of_Z y) = (x =? y)%Z.
Proof. unfold eq. rewrite compare_int, Z.eqb_compare. reflexivity. Qed.

Lemma floor_int (x : Z) : Math_floor (of_Z x) = of_Z x.
Proof. unfold Math_floor, of_Z. rewrite Qfloor_Z. reflexivity. Qed.

Lemma of_Z_inj (x y : Z) : of_Z x = of_Z y -> x = y.
Proof. unfold of_Z, inject_Z. intros H. injection H. tauto. Qed.

(** ** Bounds on rounded quotients and products *)

Lemma same_eq (x y : number) : same x y = true -> x = y.
Proof.
  destruct x as [| | |[n d]], y as [| | |[n' d']]; try discriminate; try reflexivity.
  unfold same. simpl. rewrite andb_true_iff, Z.eqb_eq, Pos.eqb_eq.
  intros [-> ->]. reflexivity.
Qed.

(** A positive binary64 value is below [2^1024]. *)
Lemma is_double_bound (q : Q) : is_double (Fin q) = true -> 0 < q -> q < 2 ^ 1024.
Proof.
  intros H Hq. apply same_eq in H. unfold round64 in H.
  destruct (Qcompare_spec q 0) as [E|E|E]; try lra.
  unfold round_pos in H.
  destruct (Qle_bool (2 ^ 1024) (round_val q)) eqn:L; [discriminate|].
  assert (~ 2 ^ 1024 <= round_val q) by (rewrite <- Qle_bool_iff; congruence).
  apply (f_equal (fun x => match x with Fin v => v | _ => 0 end)) in H.
  change (Qred (round_val q) = q) in H.
  pose proof (Qred_correct (round_val q)) as Hc.
  rewrite H in Hc. lra.
Qed.

(** [x / (m - 1)] for [x] in [[0, m - 1]] lies in [[0, 1]]. *)
Lemma div_unit_interval (x d : Z) :
  (0 <= x <= d)%Z -> (0 < d)%Z ->
  exists v, div (of_Z x) (of_Z d) = Fin v /\ 0 <= v <= 1.
Proof.
  intros Hx Hd. unfold div, of_Z.
  assert (Hdq : 0 < inject_Z d) by (change 0 with (inject_Z 0); rewrite <- Zlt_Qlt; lia).
  assert (Hxq : 0 <= inject_Z x) by (change 0 with (inject_Z 0); rewrite <- Zle_Qle; lia).
  assert (Hxd : inject_Z x <= inject_Z d) by (rewrite <- Zle_Qle; lia).
  destruct (Qcompare_spec (inject_Z d) 0) as [E|E|E]; try lra.
  set (q := inject_Z x / inject_Z d).
  assert (Hq0 : 0 <= q) by (apply Qle_shift_div_l; lra).
  assert (Hq1 : q <= 1) by (apply Qle_shift_div_r; lra).
  unfold round64.
  destruct (Qcompare_spec q 0) as [E0|E0|E0]; try lra.
  - exists 0. split; [reflexivity | lra].
  - unfold round_pos.
    assert (He : (ulp_exp q <= -52)%Z).
    { unfold ulp_exp. assert (Qlog2 q < 1)%Z; [|lia].
      apply Qlog2_lt_pow2; [assumption|]. change (2 ^ 1) with 2. lra. }
    assert (H1 : 1 == inject_Z (2 ^ (- ulp_exp q)) * 2 ^ ulp_exp q).
    { rewrite pow2_inject by lia. rewrite <- pow2_add.
      replace (- ulp_exp q + ulp_exp q)%Z with 0%Z by lia. reflexivity. }
    assert (Hv : round_val q <= 1).
    { apply Qle_trans with (inject_Z (2 ^ (- ulp_exp q)) * 2 ^ ulp_exp q).
      - apply round_val_le_multiple. rewrite <- H1. exact Hq1.
      - rewrite <- H1. apply Qle_refl. }
    pose proof (round_val_nonneg q E0) as Hv0.
    assert (L : Qle_bool (2 ^ 1024) (round_val q) = false).
    { apply not_true_is_false. rewrite Qle_bool_iff.
      pose proof (pow2_le 0 1024 ltac:(lia)) as Hp. change (2 ^ 0) with 1 in Hp.
      assert (1 < 2 ^ 1024) by (apply (pow2_lt 0 1024); lia). lra. }
    rewrite L. exists (Qred (round_val q)). split; [reflexivity|].
    rewrite Qred_correct. lra.
Qed.

(** [floor((x / m) * n)] for [x] in [[0, m)] and a bound [1 <= n] is an
    integer of [[0, n)]: the rounding of the product stays below [n]. *)
Lemma floor_scaled_range (x : Z) (qn : Q) :
  (0 <= x < 4294967296)%Z -> 1 <= qn -> qn < 2 ^ 1024 ->
  exists k, Math_floor (mul (div (of_Z x) (of_Z 4294967296)) (Fin qn)) = of_Z k /\
            (0 <= k)%Z /\ inject_Z k < qn.
Proof.
  intros Hx Hn Hmax.
  rewrite div_pow2_32 by lia.
  set (y := Qred (inject_Z x / inject_Z 4294967296)).
  assert (Hy : y == inject_Z x / inject_Z 4294967296) by apply Qred_correct.
  assert (Hx0 : 0 <= inject_Z x) by (change 0 with (inject_Z 0); rewrite <- Zle_Qle; lia).
  assert (Hx1 : inject_Z x <= 4294967295).
  { change 4294967295 with (inject_Z 4294967295). rewrite <- Zle_Qle. lia. }
  change (inject_Z 4294967296) with 4294967296 in Hy.
  assert (Hyx : y * 4294967296 == inject_Z x) by (rewrite Hy; field).
  unfold mul. set (p := y * qn).
  assert (Hpx : p * 4294967296 == inject_Z x * qn) by (unfold p; rewrite <- Hyx; ring).
  assert (Hp0 : 0 <= p) by nra.
  assert (Hp1 : p * 4294967296 <= qn * 4294967295) by nra.
  unfold round64.
  destruct (Qcompare_spec p 0) as [E|E|E]; try lra.
  - exists 0%Z. split; [reflexivity|]. split; [lia|]. change (inject_Z 0) with 0. lra.
  - unfold round_pos.
    destruct (round_val_near p) as [_ Hnear].
    pose proof (round_val_nonneg p E) as Hv0.
    assert (Hpn : p <= qn) by lra.
    pose proof (ulp_exp_le p qn E Hpn) as Hee.
    assert (Hlog : (0 <= Qlog2 qn)%Z) by (apply Qlog2_ge_pow2; exact Hn).
    assert (Hen : ulp_exp qn = (Qlog2 qn - 52)%Z) by (unfold ulp_exp; lia).
    destruct (Qlog2_spec qn) as [Hl _]; [lra|].
    assert (Hulp : 2 ^ ulp_exp p * 4503599627370496 <= qn).
    { apply Qle_trans with (2 ^ ulp_exp qn * 2 ^ 52).
      - apply Qmult_le_compat_r; [apply pow2_le; exact Hee | discriminate].
      - rewrite Hen, <- pow2_add.
        replace (Qlog2 qn - 52 + 52)%Z with (Qlog2 qn) by lia. exact Hl. }
    assert (Hv : round_val p < qn).
    { revert Hnear Hulp. generalize (2 ^ ulp_exp p) (round_val p).
      intros u v Hnear Hulp. lra. }
    assert (L : Qle_bool (2 ^ 1024) (round_val p) = false).
    { apply not_true_is_false. rewrite Qle_bool_iff. lra. }
    rewrite L. unfold Math_floor.
    exists (Qfloor (Qred (round_val p))). split; [reflexivity|]. split.
    + rewrite <- (Qfloor_Z 0). apply Qfloor_resp_le. rewrite Qred_correct. exact Hv0.
    + apply Qle_lt_trans with (Qred (round_val p)); [apply Qfloor_le|].
      rewrite Qred_correct. exact Hv.
Qed.

(** ** Rounding and the sign *)

Lemma Qlog2_comp (p q : Q) : 0 < p -> p == q -> Qlog2 p = Qlog2 q.
Proof.
  intros Hp Hpq.
  destruct (Qlog2_spec p Hp) as [H1 H2].
  destruct (Qlog2_spec q) as [H3 H4]; [lra|].
  assert (Qlog2 p < Qlog2 q + 1)%Z by (apply pow2_lt_inv; lra).
  assert (Qlog2 q < Qlog2 p + 1)%Z by (apply pow2_lt_inv; lra).
  lia.
Qed.

Lemma rne_comp (p q : Q) : p == q -> rne p = rne q.
Proof.
  intros H. unfold rne. rewrite (Qfloor_comp _ _ H).
  rewrite (Qcompare_comp (p - inject_Z (Qfloor q)) (q - inject_Z (Qfloor q))
             ltac:(rewrite H; reflexivity) (1 # 2) (1 # 2) ltac:(reflexivity)).
  reflexivity.
Qed.

Lemma round_pos_comp (p q : Q) : 0 < p -> p == q -> round_pos p = round_pos q.
Proof.
  intros Hp H. unfold round_pos, round_val, ulp_exp.
  rewrite (Qlog2_comp p q Hp H).
  rewrite (rne_comp (p / 2 ^ Z.max (Qlog2 q - 52) (-1074)) (q / 2 ^ Z.max (Qlog2 q - 52) (-1074)))
    by (rewrite H; reflexivity).
  reflexivity.
Qed.

(** Rounding depends on the value of the rational alone. *)
Lemma round64_comp (p q : Q) : p == q -> round64 p = round64 q.
Proof.
  intros H. unfold round64.
  rewrite (Qcompare_comp p q H 0 0 ltac:(reflexivity)).
  destruct (Qcompare_spec q 0) as [E|E|E].
  - reflexivity.
  - f_equal. apply round_pos_comp; [lra | rewrite H; reflexivity].
  - apply round_pos_comp; [lra | exact H].
Qed.

Lemma neg_involutive (x : number) : neg (neg x) = x.
Proof.
  destruct x as [| | |[n d]]; try reflexivity.
  unfold neg, Qopp. simpl. rewrite Z.opp_involutive. reflexivity.
Qed.

(** Rounding is symmetric. *)
Lemma round64_opp (q : Q) : round64 (- q) = neg (round64 q).
Proof.
  unfold round64.
  destruct (Qcompare_spec q 0) as [E|E|E];
  destruct (Qcompare_spec (- q) 0) as [E'|E'|E']; try lra.
  - reflexivity.
  - rewrite neg_involutive. reflexivity.
  - f_equal. apply round_pos_comp; [lra | ring].
Qed.

Lemma mul_neg_l (x y : number) : mul (neg x) y = neg (mul x y).
Proof.
  destruct x as [| | |p], y as [| | |q]; try reflexivity.
  - unfold mul, neg. destruct (Qcompare_spec q 0); reflexivity.
  - unfold mul, neg. destruct (Qcompare_spec q 0); reflexivity.
  - unfold mul, neg. destruct (Qcompare_spec p 0) as [E|E|E];
    destruct (Qcompare_spec (- p) 0) as [E'|E'|E']; try lra; reflexivity.
  - unfold mul, neg. destruct (Qcompare_spec p 0) as [E|E|E];
    destruct (Qcompare_spec (- p) 0) as [E'|E'|E']; try lra; reflexivity.
  - cbn [mul neg]. rewrite <- round64_opp. apply round64_comp. ring.
Qed.


(** ** Agreement with the Standard Library's binary64 operations *)

Example div_agrees :
  of_SF (SFdiv 53 1024 (SF_of_Z 1013904223) (SF_of_Z 4294967295))
  = div (of_Z 1013904223) (of_Z 4294967295)
  /\ of_SF (SFdiv 53 1024 (SF_of_Z 1) (SF_of_Z 3)) = div (of_Z 1) (of_Z 3)
  /\ of_SF (SFdiv 53 1024 (SF_of_Z (-7)) (SF_of_Z 10)) = div (of_Z (-7)) (of_Z 10).
Proof. vm_compute. repeat split. Qed.

Example mul_agrees :
  of_SF (SFmul 53 1024 (SFdiv 53 1024 (SF_of_Z 4294967295) (SF_of_Z 4294967296))
           (SF_of_Z 4294967295))
  = mul (div (of_Z 4294967295) (of_Z 4294967296)) (of_Z 4294967295)
  /\ of_SF (SFmul 53 1024 (SFdiv 53 1024 (SF_of_Z 4294967039) (SF_of_Z 4294967296))
              (SF_of_Z 4294967295))
     = mul (div (of_Z 4294967039) (of_Z 4294967296)) (of_Z 4294967295)
  /\ of_SF (SFmul 53 1024 (SF_of_Z 94906267) (SF_of_Z 94906267))
     = mul (of_Z 94906267) (of_Z 94906267).
Proof. vm_compute. repeat split. Qed.

Example add_agrees :
  of_SF (SFadd 53 1024 (SFmul 53 1024 (SF_of_Z 4294967295) (SF_of_Z 1664525))
           (SF_of_Z 1013904223))
  = add (mul (of_Z 4294967295) (of_Z 1664525)) (of_Z 1013904223)
  /\ of_SF (SFadd 53 1024 (SF_of_Z 9007199254740992) (SF_of_Z 1))
     = add (of_Z 9007199254740992) (of_Z 1)
  /\ of_SF (SFadd 53 1024 (SF_of_Z 9007199254740994) (SF_of_Z 1))
     = add (of_Z 9007199254740994) (of_Z 1).
Proof. vm_compute. repeat split. Qed.

End JSFacts.

(* ################################################################# *)
(** * Theory of the recurrence *)

Module Period.

Import Spec.

Local Open Scope Z_scope.

(** ** The period of the recurrence (Hull-Dobell, for a power of two) *)

Lemma geom_add (n k : nat) : geom (n + k) = geom n + 1664525 ^ Z.of_nat n * geom k.
Proof.
  induction n as [|n IH].
  - change (0 + k)%nat with k. change (Z.of_nat 0) with 0. cbn [geom]. ring.
  - change (S n + k)%nat with (S (n + k)). cbn [geom]. rewrite IH.
    rewrite Nat2Z.inj_succ, Z.pow_succ_r by lia. ring.
Qed.

Lemma pow_a_mod4 (n : nat) : 1664525 ^ Z.of_nat n mod 4 = 1.
Proof.
  induction n as [|n IH].
  - reflexivity.
  - rewrite Nat2Z.inj_succ, Z.pow_succ_r by lia.
    rewrite Z.mul_mod, IH by lia. reflexivity.
Qed.

Lemma pow_a_geom (n : nat) : 1664525 ^ Z.of_nat n - 1 = 1664524 * geom n.
Proof.
  induction n as [|n IH].
  - reflexivity.
  - rewrite Nat2Z.inj_succ, Z.pow_succ_r by lia. cbn [geom]. lia.
Qed.

Lemma geom_double (k : nat) :
  exists u, u mod 2 = 1 /\ geom (k + k) = 2 * (geom k * u).
Proof.
  pose proof (pow_a_mod4 k) as H4.
  exists ((1 + 1664525 ^ Z.of_nat k) / 2).
  rewrite geom_add.
  assert (E : 1664525 ^ Z.of_nat k = 4 * (1664525 ^ Z.of_nat k / 4) + 1).
  { pose proof (Z.div_mod (1664525 ^ Z.of_nat k) 4 ltac:(lia)) as Hd.
    rewrite H4 in Hd. exact Hd. }
  set (t := 1664525 ^ Z.of_nat k / 4) in *. rewrite E.
  replace (1 + (4 * t + 1)) with ((2 * t + 1) * 2) by ring.
  rewrite Z.div_mul by lia. split.
  - replace (2 * t + 1) with (1 + t * 2) by ring. rewrite Z.mod_add by lia. reflexivity.
  - ring.
Qed.

Lemma geom_odd (k : nat) : geom (S (k + k)) mod 2 = 1.
Proof.
  cbn [geom]. destruct (geom_double k) as (u & _ & ->).
  replace (1 + 1664525 * (2 * (geom k * u))) with (1 + (1664525 * (geom k * u)) * 2) by ring.
  rewrite Z.mod_add by lia. reflexivity.
Qed.

Lemma odd_coprime_pow2 (u j : Z) : 0 <= j -> u mod 2 = 1 -> Z.gcd (2 ^ j) u = 1.
Proof.
  intros Hj Hu. apply Z.coprime_pow_l; [assumption|].
  apply Z.coprime_prime_l; [apply Z.prime_2|].
  intros [q Hq]. rewrite Hq, Z.mod_mul in Hu by lia. discriminate.
Qed.

Lemma divide_pow2_odd (j g u : Z) :
  0 <= j -> u mod 2 = 1 -> (2 ^ j | g * u) <-> (2 ^ j | g).
Proof.
  intros Hj Hu. split.
  - intros H. apply Z.gauss with u.
    + rewrite Z.mul_comm. exact H.
    + apply odd_coprime_pow2; assumption.
  - intros H. apply Z.divide_mul_l. exact H.
Qed.

Lemma nat_parity (n : nat) : exists k, n = (k + k)%nat \/ n = S (k + k).
Proof.
  induction n as [|n [k [H|H]]].
  - exists O. left. reflexivity.
  - exists k. right. lia.
  - exists (S k). left. lia.
Qed.

(** The 2-adic valuation of [geom n] is that of [n]. *)
Lemma geom_divide (j : nat) :
  forall n : nat, (2 ^ Z.of_nat j | geom n) <-> (2 ^ Z.of_nat j | Z.of_nat n).
Proof.
  induction j as [|j IH]; intros n.
  - change (2 ^ Z.of_nat 0) with 1. split; intros _; apply Z.divide_1_l.
  - rewrite Nat2Z.inj_succ, Z.pow_succ_r by lia.
    destruct (nat_parity n) as [k [-> | ->]].
    + destruct (geom_double k) as (u & Hu & ->).
      replace (Z.of_nat (k + k)) with (2 * Z.of_nat k) by lia.
      rewrite !Z.mul_divide_cancel_l by lia.
      rewrite <- IH. apply divide_pow2_odd; [lia | exact Hu].
    + pose proof (geom_odd k) as Ho. split; intros [q Hq]; exfalso.
      * rewrite Hq in Ho.
        replace (q * (2 * 2 ^ Z.of_nat j)) with ((q * 2 ^ Z.of_nat j) * 2) in Ho by ring.
        rewrite Z.mod_mul in Ho by lia. discriminate.
      * lia.
Qed.

Lemma iter_lcg (n : nat) (s : Z) :
  0 <= s < 4294967296 ->
  Nat.iter n lcg s = (1664525 ^ Z.of_nat n * s + 1013904223 * geom n) mod 4294967296.
Proof.
  intros Hs. induction n as [|n IH].
  - change (Nat.iter 0 lcg s) with s. change (Z.of_nat 0) with 0. cbn [geom].
    rewrite Z.pow_0_r, Z.mul_1_l, Z.mul_0_r, Z.add_0_r.
    symmetry. apply Z.mod_small. exact Hs.
  - rewrite Nat2Z.inj_succ, Z.pow_succ_r, Nat.iter_succ by lia. cbn [geom].
    rewrite IH. unfold lcg. rewrite Z.add_mod by lia. rewrite Z.mul_mod_idemp_l by lia.
    rewrite <- Z.add_mod by lia. f_equal. ring.
Qed.

Lemma iter_lcg_fixed (n : nat) (s : Z) :
  0 <= s < 4294967296 ->
  Nat.iter n lcg s = s <-> (4294967296 | Z.of_nat n).
Proof.
  intros Hs.
  assert (Hodd : (1664524 * s + 1013904223) mod 2 = 1).
  { replace (1664524 * s + 1013904223) with (1 + (832262 * s + 506952111) * 2) by ring.
    rewrite Z.mod_add by lia. reflexivity. }
  assert (Hkey : (4294967296 | geom n * (1664524 * s + 1013904223)) <-> (4294967296 | Z.of_nat n)).
  { rewrite <- (geom_divide 32 n). change (2 ^ Z.of_nat 32) with (2 ^ 32).
    change 4294967296 with (2 ^ 32).
    apply divide_pow2_odd; [lia | exact Hodd]. }
  rewrite <- Hkey.
  assert (E : 1664525 ^ Z.of_nat n * s + 1013904223 * geom n
              = s + geom n * (1664524 * s + 1013904223)).
  { pose proof (pow_a_geom n). nia. }
  rewrite (iter_lcg n s Hs), E. split.
  - intros H. apply Z.mod_divide; [lia|].
    assert (H' : (s + geom n * (1664524 * s + 1013904223) - s) mod 4294967296 = 0).
    { rewrite Zminus_mod, H, (Z.mod_small s) by lia.
      rewrite Z.sub_diag. reflexivity. }
    rewrite <- H'. f_equal. ring.
  - intros [q Hq]. rewrite Hq, Z.mod_add by lia. apply Z.mod_small. lia.
Qed.

End Period.

(* ################################################################# *)
(** * Theory of the generator *)

Module LCGFacts.

Import JS JSFacts RandomLCG Spec.

Local Open Scope Z_scope.

(** ** Seeds *)

Lemma is_seed_Fin (q : Q) (s : Z) :
  0 <= s < 4294967296 -> (q == inject_Z s)%Q -> is_seed (Fin q) = true.
Proof.
  intros Hs Hq. unfold is_seed.
  assert (H1 : Qle_bool 0 q = true).
  { apply Qle_bool_iff. rewrite Hq. change 0%Q with (inject_Z 0).
    rewrite <- Zle_Qle. lia. }
  assert (H2 : Qle_bool 4294967296 q = false).
  { apply not_true_is_false. rewrite Qle_bool_iff, Hq.
    change 4294967296%Q with (inject_Z 4294967296). rewrite <- Zle_Qle. lia. }
  assert (H3 : Qeq_bool q (inject_Z (Qfloor q)) = true).
  { apply Qeq_bool_iff. rewrite (Qfloor_comp _ _ Hq), Qfloor_Z. exact Hq. }
  rewrite H1, H2, H3. reflexivity.
Qed.

Lemma is_seed_inv (x : number) :
  is_seed x = true ->
  exists q s, x = Fin q /\ 0 <= s < 4294967296 /\ (q == inject_Z s)%Q.
Proof.
  destruct x as [| | |q]; try discriminate. unfold is_seed.
  rewrite !andb_true_iff, negb_true_iff. intros [[H1 H2] H3].
  apply Qle_bool_iff in H1. apply Qeq_bool_iff in H3.
  assert (H2' : ~ (4294967296 <= q)%Q) by (rewrite <- Qle_bool_iff; congruence).
  exists q, (Qfloor q). split; [reflexivity|]. split; [|exact H3].
  rewrite H3 in H1, H2'. change 0%Q with (inject_Z 0) in H1.
  change 4294967296%Q with (inject_Z 4294967296) in H2'.
  rewrite <- Zle_Qle in H1, H2'. lia.
Qed.

Lemma is_seed_of_Z (s : Z) : 0 <= s < 4294967296 -> is_seed (of_Z s) = true.
Proof. intros H. apply (is_seed_Fin _ s H). reflexivity. Qed.

(** [checkSeed] accepts the integers of [[0, m)] and nothing else. *)
Lemma checkSeed_spec (x : number) :
  checkSeed x =
    if is_seed x then Return tt
    else if lt x (of_Z 0) then Throw (SeedNegative x)
    else if ge x m then Throw (SeedTooLarge x)
    else Throw (SeedNotInteger x).
Proof.
  unfold checkSeed, is_seed, lt, ge, ne, eq, compare, m, of_Z, Math_floor.
  destruct x as [| | |q]; try reflexivity.
  change (inject_Z 0) with 0%Q. change (inject_Z 4294967296) with 4294967296%Q.
  destruct (Qcompare_spec q 0) as [E0|E0|E0];
  destruct (Qcompare_spec q 4294967296) as [E1|E1|E1];
  destruct (Qcompare_spec q (inject_Z (Qfloor q))) as [E2|E2|E2];
  destruct (Qle_bool 0 q) eqn:L0;
  destruct (Qle_bool 4294967296 q) eqn:L1;
  destruct (Qeq_bool q (inject_Z (Qfloor q))) eqn:L2;
  try reflexivity; exfalso;
  try (apply Qle_bool_iff in L0);
  try (apply Qle_bool_iff in L1);
  try (apply Qeq_bool_iff in L2);
  try (assert (~ (0 <= q)%Q) by (rewrite <- Qle_bool_iff; congruence));
  try (assert (~ (4294967296 <= q)%Q) by (rewrite <- Qle_bool_iff; congruence));
  try (assert (~ (q == inject_Z (Qfloor q))%Q) by (rewrite <- Qeq_bool_iff; congruence));
  try lra; try tauto.
Qed.

Lemma checkSeed_valid (x : number) : is_seed x = true -> checkSeed x = Return tt.
Proof. intros H. rewrite checkSeed_spec, H. reflexivity. Qed.

Lemma checkSeed_invalid (x : number) :
  is_seed x = false -> exists e, checkSeed x = Throw e.
Proof.
  intros H. rewrite checkSeed_spec, H.
  destruct (lt x (of_Z 0)); [eexists; reflexivity|].
  destruct (ge x m); eexists; reflexivity.
Qed.

(** ** The state transition *)

Lemma lcg_range (s : Z) : 0 <= lcg s < 4294967296.
Proof. unfold lcg. apply Z.mod_pos_bound. lia. Qed.

(** The arithmetic of [nextInt_] on a seed of [[0, m)] is exact. *)
Lemma nextInt__arith (q : Q) (s : Z) :
  0 <= s < 4294967296 -> (q == inject_Z s)%Q ->
  let r := add (mul (Fin q) a) c in
  r = of_Z (s * 1664525 + 1013904223) /\
  sub r (mul (Math_floor (div r m)) m) = of_Z (lcg s).
Proof.
  intros Hs Hq r.
  assert (Hr : r = of_Z (s * 1664525 + 1013904223)).
  { unfold r, a, c.
    replace (mul (Fin q) (of_Z 1664525)) with (of_Z (s * 1664525)).
    - apply add_int. lia.
    - symmetry. unfold mul, of_Z. apply round64_int; [lia|].
      rewrite Hq, inject_Z_mult. reflexivity. }
  split; [exact Hr|]. rewrite Hr. unfold m.
  set (r0 := s * 1664525 + 1013904223).
  assert (H0 : 0 <= r0 < 2 ^ 53) by (unfold r0; lia).
  rewrite div_pow2_32 by assumption.
  rewrite floor_div_int.
  assert (Hd : 0 <= r0 / 4294967296 * 4294967296 <= r0).
  { pose proof (Z.mul_div_le r0 4294967296 ltac:(lia)).
    pose proof (Z.div_pos r0 4294967296 ltac:(lia) ltac:(lia)). lia. }
  rewrite mul_int by lia. rewrite sub_int by lia.
  f_equal. unfold lcg. fold r0. rewrite Z.mod_eq by lia. lia.
Qed.

Lemma nextInt__spec (q : Q) (s : Z) :
  0 <= s < 4294967296 -> (q == inject_Z s)%Q ->
  nextInt_ {| seed_ := Fin q |}
  = (Return (of_Z (lcg s)), {| seed_ := of_Z (lcg s) |}).
Proof.
  intros Hs Hq.
  destruct (nextInt__arith q s Hs Hq) as [_ H].
  unfold nextInt_, bind, read_seed_, write_seed_, lift. cbn [seed_].
  cbv zeta in H. rewrite H.
  rewrite (checkSeed_valid _ (is_seed_of_Z _ (lcg_range s))).
  reflexivity.
Qed.

Lemma valid_inv (this : t) :
  valid this ->
  exists q s, this = {| seed_ := Fin q |} /\ 0 <= s < 4294967296 /\ (q == inject_Z s)%Q.
Proof.
  intros H. destruct this as [x]. unfold valid in H. cbn [seed_] in H.
  destruct (is_seed_inv x H) as (q & s & -> & Hs & Hq).
  exists q, s. auto.
Qed.

Lemma valid_of_Z (s : Z) : 0 <= s < 4294967296 -> valid {| seed_ := of_Z s |}.
Proof. intros H. apply is_seed_of_Z. assumption. Qed.

Lemma nextInt__valid (this : t) :
  valid this ->
  exists s, 0 <= s < 4294967296 /\
    nextInt_ this = (Return (of_Z s), {| seed_ := of_Z s |}).
Proof.
  intros H. destruct (valid_inv this H) as (q & s & -> & Hs & Hq).
  exists (lcg s). split; [apply lcg_range|]. apply nextInt__spec; assumption.
Qed.

(** ** Arrays *)

Lemma get_middle (pre suf : Array) (x : option number) (i : Z) :
  i = Z.of_nat (length pre) -> get (pre ++ x :: suf) i = x.
Proof.
  intros ->. unfold get. destruct (Z.ltb_spec (Z.of_nat (length pre)) 0); [lia|].
  rewrite Nat2Z.id, app_nth2, Nat.sub_diag by lia. reflexivity.
Qed.

Lemma update_middle (pre suf : Array) (x v : option number) :
  update (pre ++ x :: suf) (length pre) v = pre ++ v :: suf.
Proof.
  induction pre as [|hd pre IH]; [reflexivity|].
  cbn [app length update]. rewrite IH. reflexivity.
Qed.

Lemma set_at_middle (pre suf : Array) (x v : option number) (i : Z) :
  i = Z.of_nat (length pre) -> set_at (pre ++ x :: suf) i v = pre ++ v :: suf.
Proof.
  intros ->. unfold set_at. rewrite length_app. cbn [length].
  destruct (Z.ltb_spec (Z.of_nat (length pre)) (Z.of_nat (length pre + S (length suf)))); [|lia].
  rewrite Nat2Z.id. apply update_middle.
Qed.

Lemma negative_element (z : Z) : negative (element z) = (z <? 0).
Proof. unfold negative, element. apply lt_int. Qed.

(** ** The first loop *)

Lemma fill_spec (count : nat) :
  forall (i : nat) (set src : Array), length set = i -> length src = i ->
    fill count (Z.of_nat i) (set ++ repeat None count) (src ++ repeat None count)
    = (set ++ repeat (element (-1)) count,
       src ++ map element (map Z.of_nat (seq i count))).
Proof.
  induction count as [|count IH]; intros i set src Hset Hsrc.
  - reflexivity.
  - cbn [fill repeat seq map].
    rewrite (set_at_middle set) by lia. rewrite (set_at_middle src) by lia.
    replace (Z.of_nat i + 1) with (Z.of_nat (S i)) by lia.
    change (set ++ Some (of_Z (-1)) :: repeat None count)
      with (set ++ [element (-1)] ++ repeat None count).
    change (src ++ Some (of_Z (Z.of_nat i)) :: repeat None count)
      with (src ++ [element (Z.of_nat i)] ++ repeat None count).
    rewrite !app_assoc. rewrite IH by (rewrite length_app; cbn [length]; lia).
    rewrite <- !app_assoc. reflexivity.
Qed.

Lemma fill_new (count : nat) :
  fill count 0 (repeat None count) (repeat None count)
  = (repeat (element (-1)) count, map element (integers count)).
Proof. apply (fill_spec count 0 [] []); reflexivity. Qed.

(** ** The inner loop *)

(** With [k] counted from [srcCount] inside the numbers still in [src], the
    inner loop moves the [k]'th of them to [set[setCount]]. *)
Lemma pick_spec (suf : list Z) :
  forall (pre : list Z) (srcCount k : Z) (set : Array) (setCount : Z),
    0 <= k - srcCount < Z.of_nat (length (filter nonneg suf)) ->
    exists x f1 f2 suf',
      filter nonneg suf = f1 ++ x :: f2 /\
      Z.of_nat (length f1) = k - srcCount /\
      length suf' = length suf /\
      filter nonneg suf' = f1 ++ f2 /\
      pick (length suf) (Z.of_nat (length pre)) (of_Z k) srcCount
        set (map element (pre ++ suf)) setCount
      = (set_at set setCount (element x), map element (pre ++ suf'), setCount + 1).
Proof.
  induction suf as [|z suf IH]; intros pre srcCount k set setCount Hk.
  - cbn [filter length] in Hk. lia.
  - cbn [length pick].
    assert (Hget : get (map element (pre ++ z :: suf)) (Z.of_nat (length pre)) = element z).
    { rewrite map_app. cbn [map]. apply get_middle. rewrite length_map. reflexivity. }
    rewrite Hget, negative_element.
    replace (Z.of_nat (length pre) + 1) with (Z.of_nat (length (pre ++ [z])))
      by (rewrite length_app; cbn [length]; lia).
    replace (pre ++ z :: suf) with ((pre ++ [z]) ++ suf) by (rewrite <- app_assoc; reflexivity).
    cbn [filter] in Hk |- *. change (nonneg z) with (0 <=? z) in Hk |- *.
    destruct (Z.ltb_spec z 0) as [Hz|Hz].
    + destruct (Z.leb_spec 0 z) as [Hz'|_]; [lia|].
      destruct (IH (pre ++ [z]) srcCount k set setCount Hk)
        as (x & f1 & f2 & suf' & Hf & Hl & Hlen & Hf' & Hp).
      exists x, f1, f2, (z :: suf'). repeat split; try assumption.
      * cbn [length]. lia.
      * cbn [filter]. change (nonneg z) with (0 <=? z). destruct (Z.leb_spec 0 z); [lia | assumption].
      * rewrite Hp. rewrite <- !app_assoc. reflexivity.
    + destruct (Z.leb_spec 0 z) as [_|Hz']; [|lia].
      rewrite eq_int. destruct (Z.eqb_spec srcCount k) as [E|E].
      * exists z, [], (filter nonneg suf), (-1 :: suf). repeat split.
        -- cbn [length]. lia.
        -- rewrite <- app_assoc. cbn [app].
           rewrite map_app. cbn [map].
           rewrite set_at_middle by (rewrite length_map; reflexivity).
           rewrite map_app. reflexivity.
      * cbn [length] in Hk.
        destruct (IH (pre ++ [z]) (srcCount + 1) k set setCount ltac:(lia))
          as (x & f1 & f2 & suf' & Hf & Hl & Hlen & Hf' & Hp).
        exists x, (z :: f1), f2, (z :: suf'). repeat split.
        -- rewrite Hf. reflexivity.
        -- cbn [length]. lia.
        -- cbn [length]. lia.
        -- cbn [filter]. change (nonneg z) with (0 <=? z). destruct (Z.leb_spec 0 z); [|lia].
           rewrite Hf'. reflexivity.
        -- rewrite Hp. rewrite <- !app_assoc. reflexivity.
Qed.


(** ** The second loop *)

Lemma nextRange__int (this : t) (n : Z) :
  valid this -> 1 <= n <= 4294967295 ->
  exists k, 0 <= k < n /\
    nextRange_ (of_Z n) this = (Return (of_Z k), advance this) /\
    valid (advance this).
Proof.
  intros Hv Hn. unfold nextRange_, advance.
  rewrite le_int. destruct (Z.leb_spec n 0) as [|_]; [lia|].
  destruct (nextInt__valid this Hv) as (s & Hs & Hnext).
  unfold bind. rewrite Hnext. unfold ret.
  destruct (floor_scaled_range s (inject_Z n)) as (k & Hk & Hk0 & Hk1).
  - exact Hs.
  - change 1%Q with (inject_Z 1). rewrite <- Zle_Qle. lia.
  - apply Qlt_trans with (inject_Z 4294967296).
    + rewrite <- Zlt_Qlt. lia.
    + reflexivity.
  - exists k. split; [|split].
    + rewrite <- Zlt_Qlt in Hk1. lia.
    + change (Fin (inject_Z n)) with (of_Z n) in Hk. unfold m. rewrite Hk. reflexivity.
    + apply valid_of_Z. exact Hs.
Qed.

Lemma filter_nonneg_In (sz f1 f2 : list Z) (x : Z) :
  filter nonneg sz = f1 ++ x :: f2 -> 0 <= x.
Proof.
  intros H. assert (Hin : In x (filter nonneg sz)) by (rewrite H; apply in_elt).
  apply filter_In in Hin. destruct Hin as [_ Hx]. unfold nonneg in Hx. lia.
Qed.

Lemma do_while_spec (count : nat) (r : nat) :
  forall (fuel : nat) (placed sz : list Z) (this : t),
    (1 <= r <= fuel)%nat -> Z.of_nat count <= 4294967295 ->
    length sz = count -> length (filter nonneg sz) = r ->
    (length placed + r = count)%nat -> valid this ->
    exists placed' this',
      do_while fuel (Z.of_nat count)
        {| v_set := map element placed ++ repeat (element (-1)) r;
           v_src := map element sz;
           v_m := of_Z (Z.of_nat r);
           v_setCount := Z.of_nat (length placed) |} this
      = (Return (map element (placed ++ placed')), this') /\
      Permutation placed' (filter nonneg sz) /\
      this' = Nat.iter r advance this /\ valid this'.
Proof.
  induction r as [|r IH]; intros fuel placed sz this Hr Hcount Hsz Hfil Hplaced Hv; [lia|].
  destruct fuel as [|fuel]; [lia|].
  cbn [do_while v_set v_src v_m v_setCount].
  destruct (nextRange__int this (Z.of_nat (S r)) Hv ltac:(lia)) as (k & Hk & Hnext & Hadv).
  unfold bind at 1. rewrite Hnext.
  rewrite Nat2Z.id.
  destruct (pick_spec sz [] 0 k (map element placed ++ repeat (element (-1)) (S r))
              (Z.of_nat (length placed)) ltac:(lia))
    as (x & f1 & f2 & sz' & Hf & Hl & Hlen & Hf' & Hp).
  cbn [app length] in Hp. change (Z.of_nat 0) with 0 in Hp.
  rewrite Hsz in Hp. rewrite Hp.
  cbn [repeat]. rewrite (set_at_middle (map element placed))
    by (rewrite length_map; reflexivity).
  pose proof (filter_nonneg_In sz f1 f2 x Hf) as Hx.
  assert (Hfl : (length f1 + length f2 = r)%nat).
  { rewrite Hf, length_app in Hfil. cbn [length] in Hfil. lia. }
  destruct r as [|r].
  - (* the last number *)
    cbn [repeat].
    rewrite (get_middle (map element placed) [] (element x))
      by (rewrite length_map; lia).
    rewrite negative_element. destruct (Z.ltb_spec x 0) as [|_]; [lia|].
    exists [x], (advance this). split; [|split; [|split]].
    + unfold ret. rewrite map_app. reflexivity.
    + destruct f1; [|cbn [length] in Hfl; lia]. destruct f2; [|cbn [length] in Hfl; lia].
      rewrite Hf. apply Permutation_refl.
    + reflexivity.
    + exact Hadv.
  - (* more to move *)
    assert (Hget : get (map element placed ++ element x :: repeat (element (-1)) (S r))
                     (Z.of_nat count - 1) = element (-1)).
    { replace (repeat (element (-1)) (S r)) with (repeat (element (-1)) r ++ [element (-1)])
        by (rewrite <- repeat_cons; reflexivity).
      change (map element placed ++ element x :: repeat (element (-1)) r ++ [element (-1)])
        with (map element placed ++ (element x :: repeat (element (-1)) r) ++ [element (-1)]).
      rewrite app_assoc. apply get_middle.
      rewrite length_app, length_map. cbn [length]. rewrite repeat_length. lia. }
    rewrite Hget, negative_element. change (-1 <? 0) with true. cbv iota.
    rewrite sub_int by lia.
    replace (Z.of_nat (S (S r)) - 1) with (Z.of_nat (S r)) by lia.
    replace (Z.of_nat (length placed) + 1) with (Z.of_nat (length (placed ++ [x])))
      by (rewrite length_app; cbn [length]; lia).
    replace (map element placed ++ element x :: repeat (element (-1)) (S r))
      with (map element (placed ++ [x]) ++ repeat (element (-1)) (S r))
      by (rewrite map_app, <- app_assoc; reflexivity).
    destruct (IH fuel (placed ++ [x]) sz' (advance this))
      as (placed' & this' & Hdo & Hperm & Hiter & Hv').
    + lia.
    + exact Hcount.
    + lia.
    + rewrite Hf', length_app. exact Hfl.
    + rewrite length_app. cbn [length]. lia.
    + exact Hadv.
    + exists (x :: placed'), this'. split; [|split; [|split]].
      * rewrite Hdo. rewrite <- app_assoc. reflexivity.
      * rewrite Hf. apply Permutation_cons_app. rewrite <- Hf'. exact Hperm.
      * rewrite Hiter. symmetry. apply (Nat.iter_succ_r (S r)).
      * exact Hv'.
Qed.


(** ** randomInts *)

Lemma filter_nonneg_integers (n : nat) : filter nonneg (integers n) = integers n.
Proof.
  apply forallb_filter_id. apply forallb_forall. intros z Hz.
  unfold integers in Hz. apply in_map_iff in Hz. destruct Hz as (i & <- & _).
  unfold nonneg. apply Z.leb_le. lia.
Qed.

Lemma new_Array_int (n : Z) :
  0 <= n <= 4294967295 -> new_Array (of_Z n) = Return (repeat None (Z.to_nat n)).
Proof.
  intros Hn. unfold new_Array.
  assert (Hi : is_integer (of_Z n) = true).
  { unfold is_integer, of_Z. rewrite Qfloor_Z. apply Qeq_bool_iff. reflexivity. }
  rewrite Hi, !le_int.
  destruct (Z.leb_spec 0 n); [|lia]. destruct (Z.leb_spec n 4294967295); [|lia].
  unfold to_Z, of_Z. rewrite Qfloor_Z. reflexivity.
Qed.

Lemma randomInts_spec (n : Z) (this : t) :
  1 <= n <= 4294967295 -> valid this ->
  exists p this',
    randomInts (of_Z n) this = (Return (map element p), this') /\
    Permutation p (integers (Z.to_nat n)) /\
    this' = Nat.iter (Z.to_nat n) advance this /\ valid this'.
Proof.
  intros Hn Hv. unfold randomInts, bind, lift.
  rewrite new_Array_int by lia.
  assert (Hz : to_Z (of_Z n) = n) by (unfold to_Z, of_Z; apply Qfloor_Z).
  rewrite Hz. rewrite fill_new.
  set (count := Z.to_nat n).
  destruct (do_while_spec count count (S count) [] (integers count) this)
    as (p & this' & Hdo & Hperm & Hiter & Hv').
  - lia.
  - lia.
  - unfold integers. rewrite length_map, length_seq. reflexivity.
  - rewrite filter_nonneg_integers. unfold integers.
    rewrite length_map, length_seq. reflexivity.
  - reflexivity.
  - exact Hv.
  - exists p, this'. cbn [map app length] in Hdo.
    replace (Z.of_nat count) with n in Hdo by lia.
    change (Z.of_nat 0) with 0 in Hdo.
    rewrite Hdo. rewrite filter_nonneg_integers in Hperm. auto.
Qed.

Lemma randomInts_zero (this : t) :
  randomInts (of_Z 0) this = (Throw NotPositive, this).
Proof. reflexivity. Qed.

(** ** The invariant *)

Lemma nextInt__preserves (this : t) : valid this -> valid (snd (nextInt_ this)).
Proof.
  intros Hv. destruct (nextInt__valid this Hv) as (s & Hs & ->).
  apply valid_of_Z. exact Hs.
Qed.

Lemma nextRange__preserves (n : number) (this : t) :
  valid this -> valid (snd (nextRange_ n this)).
Proof.
  intros Hv. unfold nextRange_. destruct (le n (of_Z 0)); [exact Hv|].
  destruct (nextInt__valid this Hv) as (s & Hs & Hnext).
  unfold bind. rewrite Hnext. apply valid_of_Z. exact Hs.
Qed.

Lemma do_while_preserves (fuel : nat) :
  forall (n : Z) (v : vars) (this : t),
    valid this -> valid (snd (do_while fuel n v this)).
Proof.
  induction fuel as [|fuel IH]; intros n v this Hv; [exact Hv|].
  cbn [do_while]. unfold bind at 1.
  pose proof (nextRange__preserves (v_m v) this Hv) as Hv1.
  destruct (nextRange_ (v_m v) this) as [[k| |] this1]; cbn [snd] in Hv1; try exact Hv1.
  destruct (pick (Z.to_nat n) 0 k 0 (v_set v) (v_src v) (v_setCount v)) as [[set src] setCount].
  destruct (negative (get set (n - 1))); [apply IH; exact Hv1 | exact Hv1].
Qed.

Lemma randomInts_preserves (n : number) (this : t) :
  valid this -> valid (snd (randomInts n this)).
Proof.
  intros Hv. unfold randomInts, bind, lift.
  destruct (new_Array n) as [set| |]; try exact Hv.
  destruct (fill (Z.to_nat (to_Z n)) 0 set set) as [set' src'].
  apply do_while_preserves. exact Hv.
Qed.

(** ** Construction *)

Lemma rem_m_int (f : Z) :
  0 <= f -> rem (of_Z f) m = of_Z (f mod 4294967296).
Proof.
  intros Hf. unfold rem, m, of_Z.
  change (Qeq_bool (inject_Z 4294967296) 0) with false. cbv iota.
  f_equal. rewrite <- (Qred_inject_Z (f mod 4294967296)). apply Qred_complete.
  unfold Qtrunc.
  assert (Hq : (0 <= inject_Z f / inject_Z 4294967296)%Q).
  { apply Qle_shift_div_l; [reflexivity|]. rewrite Qmult_0_l.
    change 0%Q with (inject_Z 0). rewrite <- Zle_Qle. exact Hf. }
  apply Qle_bool_iff in Hq. rewrite Hq.
  rewrite <- Zdiv_Qdiv. rewrite Z.mod_eq by lia.
  unfold Z.sub, Qminus. rewrite inject_Z_plus, inject_Z_opp, inject_Z_mult. reflexivity.
Qed.

Lemma assertion_holds :
  lt (add (mul (sub m (of_Z 1)) a) c) (Math_pow (of_Z 2) (of_Z 53)) = true.
Proof. vm_compute. reflexivity. Qed.

Lemma constructor_Fin (now : number) (q : Q) :
  constructor now (Some (Fin q))
  = Return {| seed_ := of_Z (Qfloor (Qabs q) mod 4294967296) |}.
Proof.
  unfold constructor. cbn [seed_ Math_abs Math_floor].
  change (Fin (inject_Z (Qfloor (Qabs q)))) with (of_Z (Qfloor (Qabs q))).
  assert (Hf : 0 <= Qfloor (Qabs q)).
  { rewrite <- (Qfloor_Z 0). apply Qfloor_resp_le. apply Qabs_nonneg. }
  rewrite rem_m_int by exact Hf.
  rewrite checkSeed_valid by (apply is_seed_of_Z; apply Z.mod_pos_bound; lia).
  rewrite assertion_holds. reflexivity.
Qed.

Lemma constructor_valid (now : number) (seed : option number) (this : t) :
  constructor now seed = Return this -> valid this.
Proof.
  unfold constructor. cbn [seed_].
  set (x := rem _ m). rewrite checkSeed_spec.
  destruct (is_seed x) eqn:E.
  - rewrite assertion_holds. intros H.
    assert (Hthis : this = {| seed_ := x |}) by congruence.
    rewrite Hthis. exact E.
  - destruct (lt x (of_Z 0)); [intros H; discriminate H|].
    destruct (ge x m); intros H; discriminate H.
Qed.

(** ** Termination of the second loop *)

Lemma nextInt__returns_or_throws (this : t) : fst (nextInt_ this) <> OutOfFuel.
Proof.
  unfold nextInt_, bind, read_seed_, write_seed_, lift. cbn [seed_].
  rewrite checkSeed_spec.
  destruct (is_seed _); [simpl; discriminate|].
  destruct (lt _ _); [simpl; discriminate|].
  destruct (ge _ _); simpl; discriminate.
Qed.

Lemma do_while_total (fuel : nat) :
  forall (n mz : Z) (q : Q) (set src : Array) (setCount : Z) (this : t),
    (q == inject_Z mz)%Q -> mz <= Z.of_nat fuel -> mz <= 4294967295 ->
    fst (do_while (S fuel) n
           {| v_set := set; v_src := src; v_m := Fin q; v_setCount := setCount |} this)
    <> OutOfFuel.
Proof.
  induction fuel as [|fuel IH]; intros n mz q set src setCount this Hq Hm Hmax;
    cbn [do_while v_set v_src v_m v_setCount]; unfold bind at 1;
    unfold nextRange_;
    assert (Hle : le (Fin q) (of_Z 0) = (mz <=? 0))
      by (rewrite <- le_int; unfold le, compare, of_Z; rewrite (Qcompare_comp _ _ Hq (inject_Z 0) (inject_Z 0)); reflexivity);
    rewrite Hle; destruct (Z.leb_spec mz 0) as [H0|H0];
    try (cbn [throw fst]; discriminate).
  - change (Z.of_nat 0) with 0 in Hm. lia.
  - unfold bind at 1. pose proof (nextInt__returns_or_throws this) as Hne.
    destruct (nextInt_ this) as [[x| |] this1]; cbn [fst] in Hne |- *;
      try discriminate; try congruence.
    unfold ret.
    destruct (pick (Z.to_nat n) 0 _ 0 set src setCount) as [[set' src'] setCount'].
    destruct (negative (get set' (n - 1))); [|cbn [fst]; discriminate].
    assert (Hsub : sub (Fin q) (of_Z 1) = of_Z (mz - 1)).
    { unfold sub, add, neg, of_Z. apply round64_int; [lia|].
      rewrite Hq. change (- inject_Z 1)%Q with (inject_Z (-1)).
      rewrite <- inject_Z_plus. reflexivity. }
    rewrite Hsub. apply (IH n (mz - 1)); [reflexivity | lia | lia].
Qed.

Lemma le_Fin (p q : Q) : le (Fin p) (Fin q) = true <-> (p <= q)%Q.
Proof.
  unfold le, compare.
  destruct (Qcompare_spec p q) as [E|E|E]; split; intros H;
    try reflexivity; try discriminate; try lra.
Qed.

Lemma new_Array_inv (n : number) (arr : Array) :
  new_Array n = Return arr ->
  exists q, n = Fin q /\ (q == inject_Z (to_Z n))%Q /\ 0 <= to_Z n <= 4294967295.
Proof.
  unfold new_Array. destruct n as [| | |q]; try discriminate.
  destruct (is_integer (Fin q)) eqn:E; [|discriminate].
  destruct (le (of_Z 0) (Fin q)) eqn:E0; [|discriminate].
  destruct (le (Fin q) (of_Z 4294967295)) eqn:E1; [|discriminate].
  intros _. unfold is_integer in E. apply Qeq_bool_iff in E.
  apply le_Fin in E0, E1. unfold to_Z.
  exists q. split; [reflexivity|]. split; [exact E|].
  rewrite E in E0, E1. rewrite <- Zle_Qle in E0, E1. lia.
Qed.

(** [randomInts] returns or throws: the loop never needs more rounds than
    the model gives it. *)
Lemma randomInts_total (n : number) (this : t) :
  fst (randomInts n this) <> OutOfFuel.
Proof.
  unfold randomInts, bind, lift.
  destruct (new_Array n) as [arr| |] eqn:E.
  - destruct (new_Array_inv n arr E) as (q & -> & Hq & Hn).
    destruct (fill _ 0 arr arr) as [set src].
    apply (do_while_total _ _ (to_Z (Fin q))); [exact Hq | lia | lia].
  - cbn [fst]. discriminate.
  - unfold new_Array in E. destruct (_ && _) in E; discriminate E.
Qed.

(** ** Iterating the transition *)

Lemma advance_of_Z (s : Z) :
  0 <= s < 4294967296 -> advance {| seed_ := of_Z s |} = {| seed_ := of_Z (lcg s) |}.
Proof.
  intros Hs. unfold advance.
  pose proof (nextInt__spec (inject_Z s) s Hs (Qeq_refl _)) as H.
  change (Fin (inject_Z s)) with (of_Z s) in H. rewrite H. reflexivity.
Qed.

Lemma iter_advance (k : nat) (s : Z) :
  0 <= s < 4294967296 ->
  Nat.iter k advance {| seed_ := of_Z s |} = {| seed_ := of_Z (Nat.iter k lcg s) |} /\
  0 <= Nat.iter k lcg s < 4294967296.
Proof.
  intros Hs. induction k as [|k [IH1 IH2]].
  - split; [reflexivity | exact Hs].
  - rewrite !Nat.iter_succ. rewrite IH1. split.
    + apply advance_of_Z. exact IH2.
    + apply lcg_range.
Qed.

End LCGFacts.

(* ################################################################# *)
(** * The generator against its specification *)

Module Properties.

Import JS JSFacts RandomLCG Spec Period LCGFacts.

Local Open Scope Z_scope.

Lemma nextInt_unfold (this : t) : nextInt this = nextInt_ this.
Proof.
  unfold nextInt, bind, ret. destruct (nextInt_ this) as [[x| |] this']; reflexivity.
Qed.

Lemma nextRange_unfold (n : number) (this : t) : nextRange n this = nextRange_ n this.
Proof.
  unfold nextRange, bind, ret. destruct (nextRange_ n this) as [[x| |] this']; reflexivity.
Qed.

(** C1: on a seed [s] of [[0, m)], [nextInt] computes [r = s*a + c] exactly,
    stores [r - floor(r/m)*m], which is [(s*a + c) mod m] and lies in
    [[0, m)], and returns it; from seed 0 the first two results are
    1013904223 and [(1013904223*1664525 + 1013904223) mod 2^32]. *)
Theorem nextInt_recurrence (s : Z) :
  0 <= s < 4294967296 ->
  let r := s * 1664525 + 1013904223 in
  let s' := r - r / 4294967296 * 4294967296 in
  add (mul (of_Z s) a) c = of_Z r /\
  nextInt {| seed_ := of_Z s |} = (Return (of_Z s'), {| seed_ := of_Z s' |}) /\
  s' = (s * 1664525 + 1013904223) mod 4294967296 /\
  0 <= s' < 4294967296 /\
  (forall now, constructor now (Some (of_Z 0)) = Return {| seed_ := of_Z 0 |}) /\
  nextInt {| seed_ := of_Z 0 |}
    = (Return (of_Z 1013904223), {| seed_ := of_Z 1013904223 |}) /\
  nextInt {| seed_ := of_Z 1013904223 |}
    = (Return (of_Z ((1013904223 * 1664525 + 1013904223) mod 4294967296)),
       {| seed_ := of_Z 1196435762 |}).
Proof.
  intros Hs r s'.
  assert (Hs' : s' = lcg s).
  { unfold s', lcg. fold r. rewrite Z.mod_eq by lia. lia. }
  destruct (nextInt__arith (inject_Z s) s Hs (Qeq_refl _)) as [Hr _].
  split; [exact Hr|]. split.
  { rewrite nextInt_unfold, Hs'. apply (nextInt__spec (inject_Z s) s Hs). reflexivity. }
  split; [exact Hs'|]. split; [rewrite Hs'; apply lcg_range|].
  split; [intros now; apply (constructor_Fin now (inject_Z 0))|].
  split; rewrite nextInt_unfold.
  - apply (nextInt__spec (inject_Z 0) 0); [lia | reflexivity].
  - apply (nextInt__spec (inject_Z 1013904223) 1013904223); [lia | reflexivity].
Qed.

Lemma nextInt_recurrence_witness :
  0 <= 4294967295 < 4294967296 /\
  nextInt {| seed_ := of_Z 4294967295 |}
  = (Return (of_Z 1012239698), {| seed_ := of_Z 1012239698 |}).
Proof.
  split; [lia|].
  exact (proj1 (proj2 (nextInt_recurrence 4294967295 ltac:(lia)))).
Defined.


(** C2 (as the code has it): for an integer [n] with [1 <= n <= 2^32 - 1]
    (the lengths [new Array] accepts), on a valid state [randomInts(n)]
    returns a sequence of length [n] that is a permutation of [0..n-1]: no
    duplicate, every number of [[0, n)] and no other; for [n = 1] it is
    [[0]].  For [n = 0] the loop body runs once, [nextRange_(0)] throws
    'n must be positive', and the seed is unchanged; for [n = 2^32]
    [new Array] throws a RangeError. *)
Theorem randomInts_permutation (n : Z) (this : t) :
  1 <= n <= 4294967295 -> valid this ->
  (exists (p : list Z) (this' : t),
     randomInts (of_Z n) this = (Return (map element p), this') /\
     length (map element p) = Z.to_nat n /\
     Permutation p (integers (Z.to_nat n)) /\
     NoDup p /\
     (forall z, In z p <-> 0 <= z < n) /\
     (n = 1 -> p = [0]) /\
     valid this') /\
  randomInts (of_Z 0) this = (Throw NotPositive, this) /\
  randomInts (of_Z 4294967296) this = (Throw RangeError, this).
Proof.
  intros Hn Hv. split; [|split; [apply randomInts_zero | reflexivity]].
  destruct (randomInts_spec n this Hn Hv) as (p & this' & Hrun & Hperm & _ & Hv').
  exists p, this'. split; [exact Hrun|].
  assert (Hlen : length p = Z.to_nat n).
  { rewrite (Permutation_length Hperm). unfold integers.
    rewrite length_map, length_seq. reflexivity. }
  assert (Hin : forall z, In z (integers (Z.to_nat n)) <-> 0 <= z < n).
  { intros z. unfold integers. rewrite in_map_iff. split.
    - intros (i & <- & Hi). apply in_seq in Hi. lia.
    - intros Hz. exists (Z.to_nat z). split; [lia|]. apply in_seq. lia. }
  split; [rewrite length_map; exact Hlen|]. split; [exact Hperm|]. split; [|split; [|split]].
  - apply (Permutation_NoDup (Permutation_sym Hperm)).
    unfold integers. apply Finite.Injective_map_NoDup; [|apply seq_NoDup].
    intros x y Hxy. lia.
  - intros z. rewrite <- Hin. split; apply Permutation_in;
      [exact Hperm | apply Permutation_sym; exact Hperm].
  - intros ->. apply Permutation_sym in Hperm.
    apply (Permutation_length_1_inv Hperm).
  - exact Hv'.
Qed.

Lemma randomInts_permutation_witness :
  1 <= 5 <= 4294967295 /\ valid {| seed_ := of_Z 0 |} /\
  exists p this',
    randomInts (of_Z 5) {| seed_ := of_Z 0 |} = (Return (map element p), this') /\
    Permutation p [0; 1; 2; 3; 4].
Proof.
  split; [lia|]. split; [reflexivity|].
  destruct (proj1 (randomInts_permutation 5 {| seed_ := of_Z 0 |} ltac:(lia) eq_refl))
    as (p & this' & Hrun & _ & Hperm & _).
  exists p, this'. split; [exact Hrun | exact Hperm].
Defined.

(** C2, as stated, fails at [n = 0]: [randomInts(0)] does not return the
    empty sequence, it throws. *)
Lemma randomInts_zero_throws :
  randomInts (of_Z 0) {| seed_ := of_Z 0 |} = (Throw NotPositive, {| seed_ := of_Z 0 |}) /\
  ~ (exists this', randomInts (of_Z 0) {| seed_ := of_Z 0 |} = (Return [], this')).
Proof.
  split; [reflexivity|]. intros [this' H]. discriminate H.
Qed.

(** C3: on a valid state [nextFloat] advances the state once, by
    [nextInt_], and returns [raw / (m - 1)] for the new seed [raw]; the
    result lies in [[0, 1]], and is exactly 1 when [raw = m - 1], which the
    seed 653637408 leads to. *)
Theorem nextFloat_unit_interval (this : t) :
  valid this ->
  (exists (raw : Z) (v : Q),
     0 <= raw < 4294967296 /\
     nextInt_ this = (Return (of_Z raw), advance this) /\
     nextFloat this = (Return (div (of_Z raw) (sub m (of_Z 1))), advance this) /\
     div (of_Z raw) (sub m (of_Z 1)) = Fin v /\
     (0 <= v <= 1)%Q /\
     (raw = 4294967295 -> v = 1%Q)) /\
  nextFloat {| seed_ := of_Z 653637408 |}
    = (Return (of_Z 1), {| seed_ := of_Z 4294967295 |}).
Proof.
  intros Hv. split; [|vm_compute; reflexivity].
  destruct (nextInt__valid this Hv) as (raw & Hraw & Hnext).
  assert (Hadv : advance this = {| seed_ := of_Z raw |})
    by (unfold advance; rewrite Hnext; reflexivity).
  assert (Hm1 : sub m (of_Z 1) = of_Z 4294967295) by (vm_compute; reflexivity).
  destruct (div_unit_interval raw 4294967295) as (v & Hdiv & Hrange); [lia | lia |].
  exists raw, v. rewrite Hadv, Hm1. split; [exact Hraw|]. split; [exact Hnext|].
  split; [unfold nextFloat, bind, ret; rewrite Hnext, Hm1; reflexivity|].
  split; [exact Hdiv|]. split; [exact Hrange|].
  intros ->.
  assert (H1 : div (of_Z 4294967295) (of_Z 4294967295) = Fin 1) by (vm_compute; reflexivity).
  rewrite H1 in Hdiv. congruence.
Qed.

Lemma nextFloat_unit_interval_witness :
  valid {| seed_ := of_Z 0 |} /\
  exists v, nextFloat {| seed_ := of_Z 0 |}
            = (Return (Fin v), {| seed_ := of_Z 1013904223 |}) /\ (0 <= v <= 1)%Q.
Proof.
  split; [reflexivity|].
  destruct (proj1 (nextFloat_unit_interval {| seed_ := of_Z 0 |} eq_refl))
    as (raw & v & _ & _ & Hf & Hdiv & Hrange & _).
  exists v. split; [|exact Hrange].
  rewrite Hf, Hdiv. reflexivity.
Defined.


(** C4: on a valid state [nextRange(n)] throws exactly when [n <= 0], and
    then leaves the seed alone; otherwise it returns [floor((x/m)*n)] for the
    one [nextInt] draw [x], and for a positive integer [n] that is an
    integer of [[0, n)]. *)
Theorem nextRange_range (n : number) (this : t) :
  valid this ->
  (le n (of_Z 0) = true -> nextRange n this = (Throw NotPositive, this)) /\
  (le n (of_Z 0) = false ->
     exists (x : number) (this' : t),
       nextInt this = (Return x, this') /\
       nextRange n this = (Return (Math_floor (mul (div x m) n)), this')) /\
  (forall nz : Z,
     n = of_Z nz -> 0 < nz -> is_double n = true ->
     exists k : Z, 0 <= k < nz /\ fst (nextRange n this) = Return (of_Z k)).
Proof.
  intros Hv. rewrite nextRange_unfold, nextInt_unfold. unfold nextRange_.
  destruct (nextInt__valid this Hv) as (s & Hs & Hnext).
  split; [intros ->; reflexivity|]. split.
  - intros ->. exists (of_Z s), {| seed_ := of_Z s |}. split; [exact Hnext|].
    unfold bind, ret. rewrite Hnext. reflexivity.
  - intros nz -> Hnz Hdbl.
    rewrite le_int. destruct (Z.leb_spec nz 0) as [|_]; [lia|].
    unfold bind, ret. rewrite Hnext. cbn [fst].
    assert (Hq1 : (1 <= inject_Z nz)%Q).
    { change 1%Q with (inject_Z 1). rewrite <- Zle_Qle. lia. }
    destruct (floor_scaled_range s (inject_Z nz) Hs Hq1) as (k & Hk & Hk0 & Hk1).
    + apply is_double_bound; [exact Hdbl | lra].
    + exists k. rewrite <- Zlt_Qlt in Hk1. split; [lia|].
      unfold m. f_equal. exact Hk.
Qed.

Lemma nextRange_range_witness :
  valid {| seed_ := of_Z 0 |} /\
  nextRange (of_Z 0) {| seed_ := of_Z 0 |} = (Throw NotPositive, {| seed_ := of_Z 0 |}) /\
  exists k, 0 <= k < 10 /\ fst (nextRange (of_Z 10) {| seed_ := of_Z 0 |}) = Return (of_Z k).
Proof.
  split; [reflexivity|]. split.
  - exact (proj1 (nextRange_range (of_Z 0) {| seed_ := of_Z 0 |} eq_refl) eq_refl).
  - exact (proj2 (proj2 (nextRange_range (of_Z 10) {| seed_ := of_Z 0 |} eq_refl))
             10 eq_refl ltac:(lia) eq_refl).
Defined.

(** The three tests of [checkSeed] are the words "negative, [>= m], or
    non-integral". *)
Lemma is_seed_tests (x : number) :
  is_seed x = negb (lt x (of_Z 0)) && negb (ge x m) && is_integer x.
Proof.
  pose proof (checkSeed_spec x) as H. unfold checkSeed in H.
  destruct x as [| | |q]; try reflexivity.
  unfold ne, eq, Math_floor, compare in H.
  unfold is_integer.
  destruct (is_seed (Fin q)) eqn:E.
  - destruct (lt (Fin q) (of_Z 0)); [discriminate H|].
    destruct (ge (Fin q) m); [discriminate H|].
    destruct (Qcompare_spec q (inject_Z (Qfloor q))) as [Eq|Eq|Eq]; try discriminate H.
    symmetry. apply Qeq_bool_iff in Eq. rewrite Eq. reflexivity.
  - destruct (lt (Fin q) (of_Z 0)) eqn:L; [reflexivity|].
    destruct (ge (Fin q) m) eqn:G; [reflexivity|].
    unfold is_seed in E. cbn [negb andb].
    unfold lt, compare, of_Z in L. unfold ge, compare, m, of_Z in G.
    destruct (Qeq_bool q (inject_Z (Qfloor q))); [|reflexivity].
    exfalso. rewrite andb_true_r in E.
    destruct (Qcompare_spec q (inject_Z 0)) as [C0|C0|C0]; try discriminate L;
    destruct (Qcompare_spec q (inject_Z 4294967296)) as [C1|C1|C1]; try discriminate G;
    change (inject_Z 0) with 0%Q in C0; change (inject_Z 4294967296) with 4294967296%Q in C1;
    (assert (H0 : Qle_bool 0 q = true) by (apply Qle_bool_iff; lra));
    (assert (H1 : Qle_bool 4294967296 q = false)
       by (apply not_true_is_false; rewrite Qle_bool_iff; lra));
    rewrite H0, H1 in E; discriminate E.
Qed.

(** C5: [setSeed(x)] throws exactly when [x] is negative, [>= m] or not an
    integer, and then leaves the seed alone; otherwise it stores [x] itself,
    which [getSeed] returns.  [setSeed(-1)], [setSeed(4294967296)] and
    [setSeed(3.5)] throw. *)
Theorem setSeed_strict (x : number) (this : t) :
  (lt x (of_Z 0) || ge x m || negb (is_integer x) = true ->
     exists e, setSeed x this = (Throw e, this)) /\
  (lt x (of_Z 0) || ge x m || negb (is_integer x) = false ->
     setSeed x this = (Return tt, {| seed_ := x |}) /\
     getSeed {| seed_ := x |} = (Return x, {| seed_ := x |})) /\
  setSeed (of_Z (-1)) this = (Throw (SeedNegative (of_Z (-1))), this) /\
  setSeed (of_Z 4294967296) this = (Throw (SeedTooLarge (of_Z 4294967296)), this) /\
  setSeed (Fin (7 # 2)) this = (Throw (SeedNotInteger (Fin (7 # 2))), this).
Proof.
  assert (Hneg : lt x (of_Z 0) || ge x m || negb (is_integer x) = negb (is_seed x)).
  { rewrite is_seed_tests.
    destruct (lt x (of_Z 0)), (ge x m), (is_integer x); reflexivity. }
  rewrite Hneg. unfold setSeed, bind, lift, write_seed_.
  split; [|split; [|repeat split]].
  - intros H. apply negb_true_iff in H.
    destruct (checkSeed_invalid x H) as [e ->]. exists e. reflexivity.
  - intros H. apply negb_false_iff in H.
    rewrite (checkSeed_valid x H). split; reflexivity.
Qed.

(** C6: every object the constructor returns, with or without a seed
    argument, holds an integer of [[0, m)], and every operation, successful
    or not, keeps it so. *)
Theorem seed_invariant (this : t) :
  valid this ->
  (forall (now : number) (seed : option number) (new : t),
     constructor now seed = Return new -> valid new) /\
  valid (snd (nextInt this)) /\
  valid (snd (nextFloat this)) /\
  (forall n, valid (snd (nextRange n this))) /\
  (forall n, valid (snd (randomInts n this))) /\
  (forall x, valid (snd (setSeed x this))) /\
  valid (snd (getSeed this)) /\
  valid (snd (getModulus this)) /\
  (forall ops, valid (snd (drive ops this))).
Proof.
  intros Hv.
  assert (Hint : forall this0, valid this0 -> valid (snd (nextInt this0))).
  { intros this0 H0. rewrite nextInt_unfold. apply nextInt__preserves. exact H0. }
  assert (Hfloat : forall this0, valid this0 -> valid (snd (nextFloat this0))).
  { intros this0 H0. unfold nextFloat, bind, ret.
    destruct (nextInt__valid this0 H0) as (s & Hs & ->). apply valid_of_Z. exact Hs. }
  assert (Hrange : forall n this0, valid this0 -> valid (snd (nextRange n this0))).
  { intros n this0 H0. rewrite nextRange_unfold. apply nextRange__preserves. exact H0. }
  assert (Hmap : forall (A B : Type) (f : A -> B) (c : M A) this0,
             snd (map_M f c this0) = snd (c this0)).
  { intros A B f c this0. unfold map_M, bind, ret.
    destruct (c this0) as [[v| |] this1]; reflexivity. }
  split; [intros now seed new; apply constructor_valid|].
  split; [apply Hint; exact Hv|]. split; [apply Hfloat; exact Hv|].
  split; [intros n; apply Hrange; exact Hv|].
  split; [intros n; apply randomInts_preserves; exact Hv|].
  split.
  { intros x. unfold setSeed, bind, lift, write_seed_. rewrite checkSeed_spec.
    destruct (is_seed x) eqn:E; [exact E|].
    destruct (lt x (of_Z 0)); [exact Hv|]. destruct (ge x m); exact Hv. }
  split; [exact Hv|]. split; [exact Hv|].
  intros ops. revert this Hv. induction ops as [|op ops IH]; intros this Hv; [exact Hv|].
  cbn [drive].
  assert (Hop : valid (snd (perform op this))).
  { destruct op; unfold perform; rewrite Hmap;
      [exact Hv | exact Hv | apply Hint | apply Hfloat | apply Hrange
      | apply randomInts_preserves]; exact Hv. }
  destruct (perform op this) as [o this1]. cbn [snd] in Hop.
  specialize (IH this1 Hop). destruct (drive ops this1) as [os this2]. exact IH.
Qed.

Lemma seed_invariant_witness :
  valid {| seed_ := of_Z 0 |} /\
  valid (snd (nextInt {| seed_ := of_Z 0 |})) /\
  valid (snd (randomInts (of_Z 3) {| seed_ := of_Z 0 |})).
Proof.
  split; [reflexivity|].
  pose proof (seed_invariant {| seed_ := of_Z 0 |} eq_refl) as H.
  split; [exact (proj1 (proj2 H)) | exact (proj1 (proj2 (proj2 (proj2 (proj2 H)))) (of_Z 3))].
Defined.


(** C7 (as the code has it): for every finite seed argument [s] the
    constructor stores [floor(|s|) mod m] and does not throw; constructed
    with 5, [getSeed] returns 5.  For NaN and the infinities the normalised
    value is NaN, which [checkSeed] rejects. *)
Theorem constructor_normalizes (now : number) (q : Q) :
  rem (Math_floor (Math_abs (Fin q))) m = of_Z (Qfloor (Qabs q) mod 4294967296) /\
  constructor now (Some (Fin q))
    = Return {| seed_ := of_Z (Qfloor (Qabs q) mod 4294967296) |} /\
  0 <= Qfloor (Qabs q) mod 4294967296 < 4294967296 /\
  constructor now (Some (of_Z 5)) = Return {| seed_ := of_Z 5 |} /\
  getSeed {| seed_ := of_Z 5 |} = (Return (of_Z 5), {| seed_ := of_Z 5 |}) /\
  constructor now (Some NaN) = Throw (SeedNotInteger NaN) /\
  constructor now (Some PosInf) = Throw (SeedNotInteger NaN) /\
  constructor now (Some NegInf) = Throw (SeedNotInteger NaN).
Proof.
  assert (Hf : 0 <= Qfloor (Qabs q)).
  { rewrite <- (Qfloor_Z 0). apply Qfloor_resp_le. apply Qabs_nonneg. }
  split; [apply (rem_m_int _ Hf)|].
  split; [apply constructor_Fin|].
  split; [apply Z.mod_pos_bound; lia|].
  split; [apply (constructor_Fin now (inject_Z 5))|].
  repeat split.
Qed.

(** C7, as stated, fails at the seed argument [Infinity]: the constructor
    stores nothing and throws. *)
Lemma constructor_rejects_Infinity :
  constructor (of_Z 0) (Some PosInf) = Throw (SeedNotInteger NaN) /\
  ~ (exists this, constructor (of_Z 0) (Some PosInf) = Return this).
Proof.
  split; [reflexivity|]. intros [this H]. discriminate H.
Qed.

Lemma drive_length (ops : list call) :
  forall this, length (fst (drive ops this)) = length ops.
Proof.
  induction ops as [|op ops IH]; intros this; [reflexivity|].
  cbn [drive]. destruct (perform op this) as [o this1].
  specialize (IH this1). destruct (drive ops this1) as [os this2].
  cbn [fst length] in *. rewrite IH. reflexivity.
Qed.

(** C8: two objects constructed with the same valid seed, at whatever
    times, and driven by the same calls give the same outcome at every step
    and end in the same state. *)
Theorem two_run_determinism (s : Z) (now1 now2 : number) (ops : list call) :
  0 <= s < 4294967296 ->
  exists (outs : list (outcome value)) (this' : t),
    session now1 (Some (of_Z s)) ops = Return (outs, this') /\
    session now2 (Some (of_Z s)) ops = Return (outs, this') /\
    (outs, this') = drive ops {| seed_ := of_Z s |} /\
    length outs = length ops.
Proof.
  intros Hs.
  assert (Hc : forall now, constructor now (Some (of_Z s)) = Return {| seed_ := of_Z s |}).
  { intros now. unfold of_Z at 1. rewrite constructor_Fin.
    rewrite Qabs_pos by (change 0%Q with (inject_Z 0); rewrite <- Zle_Qle; lia).
    rewrite Qfloor_Z, Z.mod_small by exact Hs. reflexivity. }
  unfold session. rewrite !Hc.
  pose proof (drive_length ops {| seed_ := of_Z s |}) as Hlen.
  destruct (drive ops {| seed_ := of_Z s |}) as [outs this'].
  exists outs, this'. auto.
Qed.

Lemma two_run_determinism_witness :
  0 <= 42 < 4294967296 /\
  session (of_Z 1) (Some (of_Z 42)) [NextInt; NextRange (of_Z 6); RandomInts (of_Z 3); NextFloat]
  = session (of_Z 2) (Some (of_Z 42)) [NextInt; NextRange (of_Z 6); RandomInts (of_Z 3); NextFloat].
Proof.
  split; [lia|].
  destruct (two_run_determinism 42 (of_Z 1) (of_Z 2)
              [NextInt; NextRange (of_Z 6); RandomInts (of_Z 3); NextFloat] ltac:(lia))
    as (outs & this' & H1 & H2 & _).
  rewrite H1, H2. reflexivity.
Defined.

Lemma iter_advance_fixed (k : N) (s : Z) :
  0 <= s < 4294967296 ->
  N.iter k advance {| seed_ := of_Z s |} = {| seed_ := of_Z s |}
  <-> (4294967296 | Z.of_N k).
Proof.
  intros Hs. rewrite N2Nat.inj_iter.
  destruct (iter_advance (N.to_nat k) s Hs) as [-> _].
  rewrite <- N_nat_Z, <- (iter_lcg_fixed (N.to_nat k) s Hs). split.
  - intros H. apply of_Z_inj. congruence.
  - intros ->. reflexivity.
Qed.

(** C9: from every seed of [[0, m)] the transition of [nextInt] comes back
    to the seed after [m = 2^32] steps and after no smaller positive number
    of steps. *)
Theorem full_period (s : Z) :
  0 <= s < 4294967296 ->
  N.iter 4294967296 advance {| seed_ := of_Z s |} = {| seed_ := of_Z s |} /\
  (forall k : N,
     (0 < k < 4294967296)%N ->
     N.iter k advance {| seed_ := of_Z s |} <> {| seed_ := of_Z s |}).
Proof.
  intros Hs. split.
  - apply (iter_advance_fixed 4294967296 s Hs). apply Z.divide_refl.
  - intros k Hk H. apply (iter_advance_fixed k s Hs) in H.
    apply Z.divide_pos_le in H; lia.
Qed.

Lemma full_period_witness :
  0 <= 0 < 4294967296 /\
  N.iter 4294967296 advance {| seed_ := of_Z 0 |} = {| seed_ := of_Z 0 |} /\
  N.iter 1 advance {| seed_ := of_Z 0 |} <> {| seed_ := of_Z 0 |}.
Proof.
  split; [lia|].
  destruct (full_period 0 ltac:(lia)) as [H1 H2].
  split; [exact H1 | apply H2; lia].
Defined.


(** X1: the intermediate value [seed * a + c] of [nextInt_] is computed
    exactly: it is at most [(m - 1) * a + c = 7149081450614098], below
    [2^53], which is the assertion of the constructor. *)
Theorem numeric_safety (s : Z) :
  0 <= s < 4294967296 ->
  0 <= s * 1664525 + 1013904223 <= 7149081450614098 /\
  7149081450614098 < 2 ^ 53 /\
  add (mul (of_Z s) a) c = of_Z (s * 1664525 + 1013904223) /\
  add (mul (sub m (of_Z 1)) a) c = of_Z 7149081450614098 /\
  Math_pow (of_Z 2) (of_Z 53) = of_Z (2 ^ 53) /\
  lt (add (mul (sub m (of_Z 1)) a) c) (Math_pow (of_Z 2) (of_Z 53)) = true.
Proof.
  intros Hs. split; [lia|]. split; [lia|].
  split; [apply (nextInt__arith (inject_Z s) s Hs (Qeq_refl _))|].
  repeat split.
Qed.

Lemma numeric_safety_witness :
  0 <= 4294967295 < 4294967296 /\
  add (mul (of_Z 4294967295) a) c = of_Z 7149081450614098.
Proof.
  split; [lia|].
  exact (proj1 (proj2 (proj2 (numeric_safety 4294967295 ltac:(lia))))).
Defined.

(** X2: [randomInts] returns or throws on every argument and from every
    state: its second loop ends within the [n + 1] rounds the model gives
    it. *)
Theorem randomInts_terminates (n : number) (this : t) :
  exists (o : outcome Array) (this' : t),
    randomInts n this = (o, this') /\ o <> OutOfFuel.
Proof.
  pose proof (randomInts_total n this) as H.
  destruct (randomInts n this) as [o this']. exists o, this'.
  split; [reflexivity | exact H].
Qed.

(** X3: [randomInts(n)] advances the state exactly [n] times. *)
Theorem randomInts_draws (n : Z) (this : t) :
  1 <= n <= 4294967295 -> valid this ->
  snd (randomInts (of_Z n) this) = N.iter (Z.to_N n) advance this.
Proof.
  intros Hn Hv.
  destruct (randomInts_spec n this Hn Hv) as (p & this' & -> & _ & -> & _).
  rewrite N2Nat.inj_iter, Z_N_nat. reflexivity.
Qed.

Lemma randomInts_draws_witness :
  1 <= 3 <= 4294967295 /\ valid {| seed_ := of_Z 0 |} /\
  snd (randomInts (of_Z 3) {| seed_ := of_Z 0 |})
  = advance (advance (advance {| seed_ := of_Z 0 |})).
Proof.
  split; [lia|]. split; [reflexivity|].
  exact (randomInts_draws 3 {| seed_ := of_Z 0 |} ltac:(lia) eq_refl).
Defined.

End Properties.

(* ################################################################# *)
(** * The path against its specification *)

Module PathProperties.

Import JS JSFacts CardioidPath.

(** C10: [x_func(t)] is [a sin t (1 + cos t)] and [y_func(t)] is
    [-a cos t (1 + cos t)], in the arithmetic of the language, for the
    radius [a] given at construction: the cardioid of the class comment with
    [x] and [y] interchanged and [y] negated, which differs from the
    unrotated one where [sin t = 0] and [cos t = 1]; neither changes the
    object; and [start], [finish] and [closedLoop] are [-Math.PI],
    [Math.PI] and [false] when omitted, and the given values otherwise. *)
Theorem cardioid_functions
    (Math_sin Math_cos : number -> number) (LOCALE : String.string)
    (radius : number) (start finish : option number) (closedLoop : option bool)
    (name localName : option String.string) (t0 : number) :
  let path := constructor LOCALE radius start finish closedLoop name localName in
  x_func Math_sin Math_cos t0 path
    = (mul (mul radius (Math_sin t0)) (add (of_Z 1) (Math_cos t0)), path) /\
  y_func Math_cos t0 path
    = (mul (mul (neg radius) (Math_cos t0)) (add (of_Z 1) (Math_cos t0)), path) /\
  fst (x_func Math_sin Math_cos t0 path) = y_unrotated Math_sin Math_cos radius t0 /\
  fst (y_func Math_cos t0 path) = neg (x_unrotated Math_cos radius t0) /\
  (radius = of_Z 1 -> Math_sin t0 = of_Z 0 -> Math_cos t0 = of_Z 1 ->
     fst (x_func Math_sin Math_cos t0 path) = of_Z 0 /\
     x_unrotated Math_cos radius t0 = of_Z 2) /\
  a_ path = radius /\
  startTValue_ (super path) = match start with Some v => v | None => neg Math_PI end /\
  finishTValue_ (super path) = match finish with Some v => v | None => Math_PI end /\
  closedLoop_ (super path) = match closedLoop with Some b => b | None => false end /\
  startTValue_ (super (constructor LOCALE radius None finish closedLoop name localName))
    = neg Math_PI /\
  finishTValue_ (super (constructor LOCALE radius start None closedLoop name localName))
    = Math_PI /\
  closedLoop_ (super (constructor LOCALE radius start finish None name localName))
    = false.
Proof.
  intros path. split; [reflexivity|]. split; [reflexivity|]. split; [reflexivity|].
  split.
  { unfold y_func, x_unrotated. cbn [fst a_ path constructor].
    rewrite !mul_neg_l. reflexivity. }
  split.
  { intros -> Hs Hc. unfold x_func, x_unrotated. cbn [fst a_ path constructor].
    rewrite Hs, Hc. split; vm_compute; reflexivity. }
  repeat split.
Qed.

End PathProperties.

(* ################################################################# *)
(** * More on the recurrence: inverse, low bits, orbits *)

Module Orbit.
Import Spec Period LCGFacts.
Local Open Scope Z_scope.

(** ** The transition is a bijection *)

Lemma lcg_prev (x : Z) : 0 <= x < 4294967296 -> lcg (prev x) = x.
Proof.
  intros Hx. unfold lcg, prev.
  rewrite Z.add_mod, Z.mul_mod_idemp_l, <- Z.add_mod by lia.
  replace ((x - 1013904223) * 4276115653 * 1664525 + 1013904223)
    with (x + (x - 1013904223) * 1657219 * 4294967296) by ring.
  rewrite Z.mod_add by lia. apply Z.mod_small. exact Hx.
Qed.

Lemma prev_lcg (s : Z) : 0 <= s < 4294967296 -> prev (lcg s) = s.
Proof.
  intros Hs. unfold lcg, prev.
  rewrite <- Z.mul_mod_idemp_l by lia.
  rewrite Zminus_mod_idemp_l. rewrite Z.mul_mod_idemp_l by lia.
  replace ((s * 1664525 + 1013904223 - 1013904223) * 4276115653)
    with (s + s * 1657219 * 4294967296) by ring.
  rewrite Z.mod_add by lia. apply Z.mod_small. exact Hs.
Qed.

Lemma prev_range (x : Z) : 0 <= prev x < 4294967296.
Proof. unfold prev. apply Z.mod_pos_bound. lia. Qed.

Lemma lcg_injective (s1 s2 : Z) :
  0 <= s1 < 4294967296 -> 0 <= s2 < 4294967296 -> lcg s1 = lcg s2 -> s1 = s2.
Proof.
  intros H1 H2 H. rewrite <- (prev_lcg s1 H1), <- (prev_lcg s2 H2), H. reflexivity.
Qed.


(** ** The low-order bits *)

Lemma mod_eq_divide (x d M : Z) : 0 < M -> (x + d) mod M = x mod M <-> (M | d).
Proof.
  intros HM. split.
  - intros H. apply Z.mod_divide; [lia|].
    replace d with ((x + d) - x) by ring.
    rewrite Zminus_mod, H, Z.sub_diag. reflexivity.
  - intros [q ->]. apply Z.mod_add. lia.
Qed.

Lemma iter_lcg_form (n : nat) (s : Z) :
  0 <= s < 4294967296 ->
  Nat.iter n lcg s = (s + geom n * (1664524 * s + 1013904223)) mod 4294967296.
Proof.
  intros Hs. rewrite (iter_lcg n s Hs). f_equal.
  pose proof (pow_a_geom n). nia.
Qed.

Lemma seed_odd (s : Z) : (1664524 * s + 1013904223) mod 2 = 1.
Proof.
  replace (1664524 * s + 1013904223) with (1 + (832262 * s + 506952111) * 2) by ring.
  rewrite Z.mod_add by lia. reflexivity.
Qed.

(** The lowest [j] bits of the state come back after [n] steps exactly when
    [2^j] divides [n]. *)
Lemma iter_lcg_low_bits (j n : nat) (s : Z) :
  (j <= 32)%nat -> 0 <= s < 4294967296 ->
  (Nat.iter n lcg s) mod 2 ^ Z.of_nat j = s mod 2 ^ Z.of_nat j
  <-> (2 ^ Z.of_nat j | Z.of_nat n).
Proof.
  intros Hj Hs. rewrite (iter_lcg_form n s Hs).
  assert (Hdiv : (2 ^ Z.of_nat j | 4294967296)).
  { exists (2 ^ (32 - Z.of_nat j)). rewrite <- Z.pow_add_r by lia.
    replace (32 - Z.of_nat j + Z.of_nat j) with 32 by lia. reflexivity. }
  rewrite (Z.mod_mod_divide _ _ _ Hdiv).
  rewrite mod_eq_divide by (apply Z.pow_pos_nonneg; lia).
  rewrite (divide_pow2_odd (Z.of_nat j) _ _ (Nat2Z.is_nonneg j) (seed_odd s)).
  apply geom_divide.
Qed.

(** ** Every value is reached *)

Lemma pow_a_odd (k : nat) : exists q, 1664525 ^ Z.of_nat k = 2 * q + 1.
Proof.
  pose proof (pow_a_mod4 k) as H.
  pose proof (Z.div_mod (1664525 ^ Z.of_nat k) 4 ltac:(lia)) as Hd.
  rewrite H in Hd. exists (2 * (1664525 ^ Z.of_nat k / 4)). lia.
Qed.

Lemma geom_pow2 (j : nat) :
  exists w, geom (Z.to_nat (2 ^ Z.of_nat j)) = 2 ^ Z.of_nat j * (2 * w + 1).
Proof.
  assert (Hp : 0 < 2 ^ Z.of_nat j) by (apply Z.pow_pos_nonneg; lia).
  set (K := Z.to_nat (2 ^ Z.of_nat j)).
  assert (HK : Z.of_nat K = 2 ^ Z.of_nat j) by (unfold K; lia).
  destruct (proj2 (geom_divide j K)) as [g Hg]; [rewrite HK; apply Z.divide_refl|].
  destruct (Z.Even_or_Odd g) as [[h Hh]|[h Hh]].
  - exfalso.
    assert (Hd : (2 ^ Z.of_nat (S j) | geom K)).
    { exists h. rewrite Hg, Hh, Nat2Z.inj_succ, Z.pow_succ_r by lia. ring. }
    apply (geom_divide (S j) K) in Hd. rewrite HK in Hd.
    apply Z.divide_pos_le in Hd; [|lia].
    rewrite Nat2Z.inj_succ, Z.pow_succ_r in Hd by lia. lia.
  - exists h. rewrite Hg, Hh. ring.
Qed.

Lemma geom_surjective (j : nat) :
  forall t : Z, exists k : nat,
    Z.of_nat k < 2 ^ Z.of_nat j /\ (2 ^ Z.of_nat j | geom k - t).
Proof.
  induction j as [|j IH]; intros t.
  - exists O. split; [reflexivity | apply Z.divide_1_l].
  - destruct (IH t) as (k & Hk & [e He]).
    assert (Hp : 0 < 2 ^ Z.of_nat j) by (apply Z.pow_pos_nonneg; lia).
    rewrite Nat2Z.inj_succ, Z.pow_succ_r by lia.
    destruct (Z.Even_or_Odd e) as [[h Hh]|[h Hh]].
    + exists k. split; [lia|]. exists h. rewrite He, Hh. ring.
    + destruct (geom_pow2 j) as [w Hw]. destruct (pow_a_odd k) as [q Hq].
      exists (k + Z.to_nat (2 ^ Z.of_nat j))%nat. split; [lia|].
      exists (h + q * (2 * w + 1) + w + 1).
      rewrite geom_add, Hw, Hq.
      replace (geom k) with (e * 2 ^ Z.of_nat j + t) by lia. rewrite Hh. ring.
Qed.

(** From every seed the recurrence reaches every value of [[0, m)] within
    [m] steps. *)
Lemma iter_lcg_reaches (s x : Z) :
  0 <= s < 4294967296 -> 0 <= x < 4294967296 ->
  exists k : nat, Z.of_nat k < 4294967296 /\ Nat.iter k lcg s = x.
Proof.
  intros Hs Hx.
  destruct (Z.Bezout_coprime (2 ^ 32) (1664524 * s + 1013904223)) as (p & q & Hpq).
  { apply odd_coprime_pow2; [lia | apply seed_odd]. }
  destruct (geom_surjective 32 ((x - s) * q)) as (k & Hk & [e He]).
  change (2 ^ Z.of_nat 32) with 4294967296 in Hk, He.
  change (2 ^ 32) with 4294967296 in Hpq.
  exists k. split; [exact Hk|].
  rewrite (iter_lcg_form k s Hs).
  replace (s + geom k * (1664524 * s + 1013904223))
    with (x + (e * (1664524 * s + 1013904223) - (x - s) * p) * 4294967296).
  - rewrite Z.mod_add by lia. apply Z.mod_small. exact Hx.
  - replace (geom k) with (e * 4294967296 + (x - s) * q) by lia.
    set (u := 1664524 * s + 1013904223) in *.
    replace (x + (e * u - (x - s) * p) * 4294967296)
      with (s + e * 4294967296 * u + (x - s) * (1 - p * 4294967296)) by ring.
    rewrite <- Hpq. ring.
Qed.

Lemma iter_lcg_range (k : nat) (s : Z) :
  0 <= s < 4294967296 -> 0 <= Nat.iter k lcg s < 4294967296.
Proof.
  intros Hs. destruct k; [exact Hs|]. rewrite Nat.iter_succ. apply lcg_range.
Qed.

(** ... and each value once. *)
Lemma iter_lcg_once (s : Z) (k1 k2 : nat) :
  0 <= s < 4294967296 ->
  Z.of_nat k1 < 4294967296 -> Z.of_nat k2 < 4294967296 ->
  Nat.iter k1 lcg s = Nat.iter k2 lcg s -> k1 = k2.
Proof.
  assert (Hle : forall a b : nat, (a <= b)%nat -> 0 <= s < 4294967296 ->
            Z.of_nat b < 4294967296 ->
            Nat.iter a lcg s = Nat.iter b lcg s -> a = b).
  { intros a b Hab Hs Hb H.
    replace b with ((b - a) + a)%nat in H by lia.
    rewrite Nat.iter_add in H. symmetry in H.
    apply (iter_lcg_fixed (b - a) _ (iter_lcg_range a s Hs)) in H.
    destruct H as [z Hz].
    assert (z = 0) by nia. lia. }
  intros Hs H1 H2 H.
  destruct (Nat.le_ge_cases k1 k2) as [L|L].
  - apply Hle; assumption.
  - symmetry. apply Hle; [assumption | assumption | assumption | symmetry; assumption].
Qed.

End Orbit.

(* ################################################################# *)
(** * More on the number model *)

Module RoundingFacts.
Import JS JSFacts.
Local Open Scope Q_scope.

(** ** Products with a binary64 value *)

Lemma mul_neg_r (x y : number) : mul x (neg y) = neg (mul x y).
Proof.
  destruct x as [| | |p], y as [| | |q]; try reflexivity.
  - unfold mul, neg. destruct (Qcompare_spec q 0) as [E|E|E];
    destruct (Qcompare_spec (- q) 0) as [E'|E'|E']; try lra; reflexivity.
  - unfold mul, neg. destruct (Qcompare_spec q 0) as [E|E|E];
    destruct (Qcompare_spec (- q) 0) as [E'|E'|E']; try lra; reflexivity.
  - unfold mul, neg. destruct (Qcompare_spec p 0); reflexivity.
  - unfold mul, neg. destruct (Qcompare_spec p 0); reflexivity.
  - cbn [mul neg]. rewrite <- round64_opp. apply round64_comp. ring.
Qed.

(** A positive binary64 value is a multiple of its ulp, below [2^1024]. *)
Lemma is_double_pos (b : Q) :
  is_double (Fin b) = true -> 0 < b -> b == round_val b /\ b < 2 ^ 1024.
Proof.
  intros H Hb. split; [|apply is_double_bound; assumption].
  apply same_eq in H. unfold round64 in H.
  destruct (Qcompare_spec b 0) as [E|E|E]; try lra.
  unfold round_pos in H.
  destruct (Qle_bool (2 ^ 1024) (round_val b)); [discriminate|].
  apply (f_equal (fun x => match x with Fin v => v | _ => 0 end)) in H.
  change (Qred (round_val b) = b) in H.
  pose proof (Qred_correct (round_val b)) as Hc. rewrite H in Hc. exact Hc.
Qed.

Lemma is_double_neg (b : Q) : is_double (Fin b) = true -> is_double (Fin (- b)) = true.
Proof.
  intros H. apply same_eq in H. unfold is_double.
  rewrite round64_opp, H. unfold neg, same.
  rewrite Z.eqb_refl, Pos.eqb_refl. reflexivity.
Qed.

(** Rounding does not cross a binary64 value. *)
Lemma round_val_le_double (p b : Q) :
  0 < p -> p <= b -> is_double (Fin b) = true -> round_val p <= b.
Proof.
  intros Hp Hpb Hb.
  destruct (is_double_pos b Hb ltac:(lra)) as [Hr _].
  pose proof (ulp_exp_le p b Hp Hpb) as He.
  unfold round_val in Hr.
  set (s := rne (b / 2 ^ ulp_exp b)) in *.
  assert (HB : b == inject_Z (s * 2 ^ (ulp_exp b - ulp_exp p)) * 2 ^ ulp_exp p).
  { rewrite inject_Z_mult, pow2_inject, pow2_sub by lia.
    rewrite Hr at 1. field. pose proof (pow2_pos (ulp_exp p)). lra. }
  rewrite HB. apply round_val_le_multiple. rewrite <- HB. exact Hpb.
Qed.

Lemma round_pos_le_double (p b : Q) :
  0 < p -> p <= b -> is_double (Fin b) = true ->
  exists w, round_pos p = Fin w.
Proof.
  intros Hp Hpb Hb. unfold round_pos.
  pose proof (round_val_le_double p b Hp Hpb Hb) as Hv.
  destruct (is_double_pos b Hb ltac:(lra)) as [_ Hmax].
  assert (L : Qle_bool (2 ^ 1024) (round_val p) = false).
  { apply not_true_is_false. rewrite Qle_bool_iff. lra. }
  rewrite L. eexists. reflexivity.
Qed.

(** The product of a binary64 value and a factor of [[-1, 1]] is finite. *)
Lemma mul_unit_finite (r f : Q) :
  is_double (Fin r) = true -> -1 <= f <= 1 -> exists w, mul (Fin r) (Fin f) = Fin w.
Proof.
  intros Hr Hf. unfold mul, round64.
  assert (Habs : forall p b, 0 < p -> p <= b -> is_double (Fin b) = true \/
                   is_double (Fin (- b)) = true -> exists w, round_pos p = Fin w).
  { intros p b Hp Hpb [Hb|Hb]; [apply (round_pos_le_double p b); assumption|].
    apply is_double_neg in Hb.
    apply (round_pos_le_double p (- - b)); [assumption | lra | exact Hb]. }
  destruct (Qcompare_spec (r * f) 0) as [E|E|E].
  - eexists. reflexivity.
  - destruct (Qlt_le_dec r 0) as [Hs|Hs].
    + destruct (Habs (- (r * f)) (- r)) as [w ->]; [lra | nra | |].
      * left. apply is_double_neg. exact Hr.
      * eexists. reflexivity.
    + destruct (Habs (- (r * f)) r) as [w ->]; [lra | nra | left; exact Hr|].
      eexists. reflexivity.
  - destruct (Qlt_le_dec r 0) as [Hs|Hs].
    + apply (Habs (r * f) (- r)); [lra | nra |]. left. apply is_double_neg. exact Hr.
    + apply (Habs (r * f) r); [lra | nra | left; exact Hr].
Qed.

Lemma mul_zero_r (w : Q) : mul (Fin w) (of_Z 0) = of_Z 0.
Proof.
  unfold mul, of_Z, round64.
  destruct (Qcompare_spec (w * inject_Z 0) 0) as [E|E|E]; [reflexivity | |];
    change (inject_Z 0) with 0 in E; lra.
Qed.

Lemma mul_minus_one (r : Q) :
  is_double (Fin r) = true -> mul (Fin (- r)) (of_Z (-1)) = Fin r.
Proof.
  intros Hr. apply same_eq in Hr. unfold mul, of_Z.
  rewrite <- Hr. apply round64_comp. change (inject_Z (-1)) with (-1). ring.
Qed.

End RoundingFacts.

(* ################################################################# *)
(** * More on nextRange_ *)

Module RangeFacts.
Import JS JSFacts RandomLCG Spec Period LCGFacts.
Local Open Scope Z_scope.

(** ** nextRange_ without rounding *)

Lemma ceil_le (t n x : Z) : 0 < n -> (t + n - 1) / n <= x <-> t <= x * n.
Proof.
  intros Hn.
  pose proof (Z.div_mod (t + n - 1) n ltac:(lia)) as Hd.
  pose proof (Z.mod_pos_bound (t + n - 1) n Hn) as Hm.
  split; intros H; nia.
Qed.

(** The draws that give the outcome [k] are those of
    [[first_draw n k, first_draw n (k + 1))]. *)
Lemma scaled_interval (n k x : Z) :
  0 < n -> (x * n) / 4294967296 = k <-> first_draw n k <= x < first_draw n (k + 1).
Proof.
  intros Hn. unfold first_draw.
  rewrite (ceil_le (k * 4294967296) n x Hn).
  assert (H1 : x < ((k + 1) * 4294967296 + n - 1) / n <-> x * n < (k + 1) * 4294967296).
  { pose proof (ceil_le ((k + 1) * 4294967296) n x Hn). lia. }
  rewrite H1.
  pose proof (Z.div_mod (x * n) 4294967296 ltac:(lia)) as Hd.
  pose proof (Z.mod_pos_bound (x * n) 4294967296 ltac:(lia)) as Hm.
  split; intros H; nia.
Qed.

(** Each outcome has [floor(m / n)] or [floor(m / n) + 1] draws. *)
Lemma first_draw_step (n k : Z) :
  0 < n ->
  4294967296 / n <= first_draw n (k + 1) - first_draw n k <= 4294967296 / n + 1.
Proof.
  intros Hn. unfold first_draw.
  pose proof (Z.div_mod 4294967296 n ltac:(lia)) as Hd.
  pose proof (Z.mod_pos_bound 4294967296 n Hn) as Hm.
  set (q := 4294967296 / n) in *. set (r := 4294967296 mod n) in *.
  replace ((k + 1) * 4294967296 + n - 1) with ((k * 4294967296 + n - 1 + r) + q * n) by lia.
  rewrite Z.div_add by lia.
  set (A := k * 4294967296 + n - 1).
  assert (A / n <= (A + r) / n) by (apply Z.div_le_mono; lia).
  assert ((A + r) / n <= (A + 1 * n) / n) by (apply Z.div_le_mono; lia).
  rewrite Z.div_add in * by lia. lia.
Qed.

Lemma first_draw_ends (n : Z) :
  0 < n -> first_draw n 0 = 0 /\ first_draw n n = 4294967296.
Proof.
  intros Hn. unfold first_draw. split.
  - apply Z.div_small. lia.
  - replace (n * 4294967296 + n - 1) with ((n - 1) + 4294967296 * n) by ring.
    rewrite Z.div_add by lia. rewrite Z.div_small by lia. reflexivity.
Qed.

(** For a bound [n = u * 2^j] with [u <= 2^21] and [j <= 32] the product
    [(x / m) * n] is a binary64 value: nothing is rounded. *)
Lemma floor_scaled_exact (x u j : Z) :
  0 <= x < 4294967296 -> 1 <= u <= 2097152 -> 0 <= j <= 32 ->
  Math_floor (mul (div (of_Z x) (of_Z 4294967296)) (of_Z (u * 2 ^ j)))
  = of_Z ((x * (u * 2 ^ j)) / 4294967296).
Proof.
  intros Hx Hu Hj.
  rewrite div_pow2_32 by lia.
  set (y := Qred (inject_Z x / inject_Z 4294967296)).
  assert (Hy : (y == inject_Z x / inject_Z 4294967296)%Q) by apply Qred_correct.
  unfold mul, of_Z at 1.
  assert (Hp : (y * inject_Z (u * 2 ^ j)
                == inject_Z (x * (u * 2 ^ j)) / inject_Z 4294967296)%Q).
  { rewrite Hy, !inject_Z_mult. field; discriminate. }
  rewrite (round64_exact _ (x * u) (j - 32)).
  - unfold Math_floor, of_Z. f_equal. f_equal.
    rewrite (Qfloor_comp _ _ (Qred_correct _)), (Qfloor_comp _ _ Hp).
    symmetry. apply Zdiv_Qdiv.
  - nia.
  - lia.
  - rewrite Hp, !inject_Z_mult, pow2_inject, pow2_sub by lia.
    change (inject_Z 4294967296) with (2 ^ 32)%Q.
    field; pose proof (pow2_pos 32); lra.
Qed.


(** ** nextRange_ on bounds that are not integers *)

Lemma Qfloor_unit (v : Q) : (0 <= v)%Q -> (v < 1)%Q -> Qfloor v = 0.
Proof.
  intros H0 H1.
  pose proof (Qfloor_le v) as Hl. pose proof (Qlt_floor v) as Hu.
  assert (Qfloor v < 1).
  { rewrite Zlt_Qlt. change (inject_Z 1) with 1%Q. lra. }
  assert (0 < Qfloor v + 1).
  { rewrite Zlt_Qlt. change (inject_Z 0) with 0%Q. lra. }
  lia.
Qed.

(** For a bound [0 < n <= 1] the result is 0. *)
Lemma floor_scaled_small (x : Z) (qn : Q) :
  0 <= x < 4294967296 -> (0 < qn)%Q -> (qn <= 1)%Q ->
  Math_floor (mul (div (of_Z x) (of_Z 4294967296)) (Fin qn)) = of_Z 0.
Proof.
  intros Hx Hn0 Hn1.
  rewrite div_pow2_32 by lia.
  set (y := Qred (inject_Z x / inject_Z 4294967296)).
  assert (Hy : (y == inject_Z x / inject_Z 4294967296)%Q) by apply Qred_correct.
  assert (Hx0 : (0 <= inject_Z x)%Q)
    by (change 0%Q with (inject_Z 0); rewrite <- Zle_Qle; lia).
  assert (Hx1 : (inject_Z x <= 4294967295)%Q).
  { change 4294967295%Q with (inject_Z 4294967295). rewrite <- Zle_Qle. lia. }
  change (inject_Z 4294967296) with 4294967296%Q in Hy.
  assert (Hyx : (y * 4294967296 == inject_Z x)%Q) by (rewrite Hy; field).
  unfold mul. set (p := (y * qn)%Q).
  assert (Hp0 : (0 <= p)%Q) by (unfold p; nra).
  assert (Hp1 : (p * 4294967296 <= 4294967295)%Q) by (unfold p; nra).
  unfold round64.
  destruct (Qcompare_spec p 0) as [E|E|E]; try lra.
  - reflexivity.
  - unfold round_pos.
    pose proof (round_val_nonneg p E) as Hv0.
    assert (He : (ulp_exp p <= -53)%Z).
    { unfold ulp_exp. assert (Qlog2 p < 0)%Z; [|lia].
      apply Qlog2_lt_pow2; [assumption|]. change (2 ^ 0)%Q with 1%Q. lra. }
    pose proof (ulp_exp_ge p) as He'.
    assert (HB : (inject_Z (8589934591 * 2 ^ (- 33 - ulp_exp p)) * 2 ^ ulp_exp p
                  == 8589934591 / 8589934592)%Q).
    { rewrite inject_Z_mult, pow2_inject by lia.
      rewrite <- Qmult_assoc, <- pow2_add.
      replace (- 33 - ulp_exp p + ulp_exp p)%Z with (-33)%Z by lia.
      reflexivity. }
    assert (Hv : (round_val p <= 8589934591 / 8589934592)%Q).
    { rewrite <- HB. apply round_val_le_multiple. rewrite HB.
      apply Qle_shift_div_l; [reflexivity | lra]. }
    assert (Hv1 : (round_val p < 1)%Q).
    { apply Qle_lt_trans with (8589934591 / 8589934592)%Q; [exact Hv | reflexivity]. }
    assert (L : Qle_bool (2 ^ 1024) (round_val p) = false).
    { apply not_true_is_false. rewrite Qle_bool_iff.
      assert (1 < 2 ^ 1024)%Q by (apply (pow2_lt 0 1024); lia). lra. }
    rewrite L. unfold Math_floor, of_Z. f_equal. f_equal.
    apply Qfloor_unit; rewrite Qred_correct; assumption.
Qed.

(** For every finite bound [0 < n] the result is an integer [k] with
    [0 <= k < n]. *)
Lemma floor_scaled_positive (x : Z) (qn : Q) :
  0 <= x < 4294967296 -> (0 < qn)%Q -> (qn < 2 ^ 1024)%Q ->
  exists k, Math_floor (mul (div (of_Z x) (of_Z 4294967296)) (Fin qn)) = of_Z k /\
            0 <= k /\ (inject_Z k < qn)%Q.
Proof.
  intros Hx Hn0 Hmax.
  destruct (Qlt_le_dec qn 1) as [H1|H1].
  - exists 0. split; [apply floor_scaled_small; lra || assumption|].
    split; [lia | exact Hn0].
  - apply floor_scaled_range; assumption.
Qed.

End RangeFacts.

(* ################################################################# *)
(** * More on nextFloat *)

Module FloatFacts.
Import JS JSFacts RandomLCG Spec Period LCGFacts.
Local Open Scope Z_scope.

(** ** nextFloat keeps the order of the draws *)

(** The quotient [x / (m - 1)] is within [2^-53] of its rounding. *)
Lemma div_unit_near (x : Z) :
  0 <= x <= 4294967295 ->
  exists v, div (of_Z x) (of_Z 4294967295) = Fin v /\
    (inject_Z x - (4294967295 # 9007199254740992) <= v * 4294967295
     <= inject_Z x + (4294967295 # 9007199254740992))%Q.
Proof.
  intros Hx. unfold div, of_Z.
  change (Qcompare (inject_Z 4294967295) 0) with Gt. cbv iota.
  assert (Hx0 : (0 <= inject_Z x)%Q)
    by (change 0%Q with (inject_Z 0); rewrite <- Zle_Qle; lia).
  assert (Hx1 : (inject_Z x <= 4294967295)%Q).
  { change 4294967295%Q with (inject_Z 4294967295). rewrite <- Zle_Qle. lia. }
  change (inject_Z 4294967295) with 4294967295%Q.
  set (q := (inject_Z x / 4294967295)%Q).
  assert (Hq : (q * 4294967295 == inject_Z x)%Q) by (unfold q; field).
  unfold round64.
  destruct (Qcompare_spec q 0) as [E|E|E]; try lra.
  - exists 0%Q. split; [reflexivity|]. lra.
  - unfold round_pos.
    assert (He : (ulp_exp q <= -52)%Z).
    { unfold ulp_exp. assert (Qlog2 q < 1)%Z; [|lia].
      apply Qlog2_lt_pow2; [assumption|]. change (2 ^ 1)%Q with 2%Q. lra. }
    pose proof (pow2_le _ _ He) as Hu. change (2 ^ (-52))%Q with (1 # 4503599627370496)%Q in Hu.
    pose proof (pow2_pos (ulp_exp q)) as Hu0.
    destruct (round_val_near q) as [Hn1 Hn2].
    assert (L : Qle_bool (2 ^ 1024) (round_val q) = false).
    { apply not_true_is_false. rewrite Qle_bool_iff.
      assert (2 < 2 ^ 1024)%Q by (apply (pow2_lt 1 1024); lia).
      revert Hn2 Hu Hu0. generalize (2 ^ ulp_exp q)%Q (round_val q). intros u v. lra. }
    rewrite L. exists (Qred (round_val q)). split; [reflexivity|].
    rewrite Qred_correct.
    revert Hn1 Hn2 Hu Hu0. generalize (2 ^ ulp_exp q)%Q (round_val q).
    intros u v Hn1 Hn2 Hu Hu0.
    lra.
Qed.

Lemma div_unit_increasing (x1 x2 : Z) :
  0 <= x1 -> x1 < x2 -> x2 <= 4294967295 ->
  lt (div (of_Z x1) (of_Z 4294967295)) (div (of_Z x2) (of_Z 4294967295)) = true.
Proof.
  intros H0 H12 H2.
  destruct (div_unit_near x1 ltac:(lia)) as (v1 & -> & Hv1).
  destruct (div_unit_near x2 ltac:(lia)) as (v2 & -> & Hv2).
  unfold lt, compare.
  assert (H : (inject_Z x1 + 1 <= inject_Z x2)%Q).
  { change 1%Q with (inject_Z 1). rewrite <- inject_Z_plus, <- Zle_Qle. lia. }
  destruct (Qcompare_spec v1 v2) as [E|E|E]; try reflexivity; exfalso; lra.
Qed.

End FloatFacts.

(* ################################################################# *)
(** * randomInts on every argument *)

Module ArgumentFacts.
Import JS JSFacts RandomLCG Spec Period LCGFacts.
Local Open Scope Z_scope.

(** ** The argument of randomInts, whatever fraction carries it *)

Lemma compare_comp_l (p q : Q) (y : number) :
  (p == q)%Q -> compare (Fin p) y = compare (Fin q) y.
Proof.
  intros H. destruct y as [| | |r]; try reflexivity.
  unfold compare. rewrite (Qcompare_comp p q H r r (Qeq_refl r)). reflexivity.
Qed.

Lemma compare_comp_r (p q : Q) (x : number) :
  (p == q)%Q -> compare x (Fin p) = compare x (Fin q).
Proof.
  intros H. destruct x as [| | |r]; try reflexivity.
  unfold compare. rewrite (Qcompare_comp r r (Qeq_refl r) p q H). reflexivity.
Qed.

Lemma mul_comp_r (p q : Q) (x : number) :
  (p == q)%Q -> mul x (Fin p) = mul x (Fin q).
Proof.
  intros H. destruct x as [| | |r]; try reflexivity; unfold mul.
  - rewrite (Qcompare_comp p q H 0%Q 0%Q (Qeq_refl 0%Q)). reflexivity.
  - rewrite (Qcompare_comp p q H 0%Q 0%Q (Qeq_refl 0%Q)). reflexivity.
  - apply round64_comp. rewrite H. reflexivity.
Qed.

Lemma sub_comp_l (p q : Q) (y : number) :
  (p == q)%Q -> sub (Fin p) y = sub (Fin q) y.
Proof.
  intros H. unfold sub. destruct y as [| | |r]; try reflexivity.
  unfold add, neg. apply round64_comp. rewrite H. reflexivity.
Qed.

Lemma nextRange__comp (p q : Q) (this : t) :
  (p == q)%Q -> nextRange_ (Fin p) this = nextRange_ (Fin q) this.
Proof.
  intros H. unfold nextRange_, le.
  rewrite (compare_comp_l p q _ H).
  destruct (compare (Fin q) (of_Z 0)) as [[| |]|]; try reflexivity;
    unfold bind; destruct (nextInt_ this) as [[x| |] this']; try reflexivity;
    unfold ret; rewrite (mul_comp_r p q _ H); reflexivity.
Qed.

Lemma do_while_comp (fuel : nat) (n : Z) (p q : Q) (set src : Array) (setCount : Z)
    (this : t) :
  (p == q)%Q ->
  do_while fuel n {| v_set := set; v_src := src; v_m := Fin p; v_setCount := setCount |} this
  = do_while fuel n {| v_set := set; v_src := src; v_m := Fin q; v_setCount := setCount |} this.
Proof.
  intros H. destruct fuel as [|fuel]; [reflexivity|].
  cbn [do_while v_set v_src v_m v_setCount]. unfold bind.
  rewrite (nextRange__comp p q this H), (sub_comp_l p q _ H). reflexivity.
Qed.

Lemma new_Array_comp (p q : Q) : (p == q)%Q -> new_Array (Fin p) = new_Array (Fin q).
Proof.
  intros H. unfold new_Array, is_integer, le, to_Z.
  rewrite (compare_comp_l p q _ H), (compare_comp_r p q _ H), (Qfloor_comp _ _ H).
  assert (E : Qeq_bool p (inject_Z (Qfloor q)) = Qeq_bool q (inject_Z (Qfloor q))).
  { destruct (Qeq_bool q _) eqn:E1.
    - apply Qeq_bool_iff. apply Qeq_bool_iff in E1. rewrite H. exact E1.
    - apply not_true_is_false. intros E2. apply Qeq_bool_iff in E2.
      rewrite H in E2. apply Qeq_bool_iff in E2. congruence. }
  rewrite E. reflexivity.
Qed.

Lemma randomInts_comp (p q : Q) (this : t) :
  (p == q)%Q -> randomInts (Fin p) this = randomInts (Fin q) this.
Proof.
  intros H. unfold randomInts, bind, lift.
  rewrite (new_Array_comp p q H).
  destruct (new_Array (Fin q)) as [arr| |]; try reflexivity.
  unfold to_Z. rewrite (Qfloor_comp _ _ H).
  destruct (fill _ 0 arr arr) as [set src].
  apply do_while_comp. exact H.
Qed.

(** [randomInts] does all of its work or none: on a valid state it either
    returns a permutation after exactly [n] draws, or throws with the seed
    untouched. *)
Lemma randomInts_cases (n : number) (this : t) :
  valid this ->
  (new_Array n = Throw RangeError /\ randomInts n this = (Throw RangeError, this)) \/
  (eq n (of_Z 0) = true /\ randomInts n this = (Throw NotPositive, this)) \/
  (exists (z : Z) (p : list Z),
      1 <= z <= 4294967295 /\ eq n (of_Z z) = true /\
      randomInts n this = (Return (map element p), Nat.iter (Z.to_nat z) advance this) /\
      Permutation p (integers (Z.to_nat z))).
Proof.
  intros Hv.
  destruct (new_Array n) as [arr| |] eqn:E.
  - destruct (new_Array_inv n arr E) as (q & -> & Hq & Hz).
    set (z := to_Z (Fin q)) in *.
    assert (Heq : eq (Fin q) (of_Z z) = true).
    { unfold eq, compare, of_Z.
      destruct (Qcompare_spec q (inject_Z z)) as [_|C|C]; [reflexivity | lra | lra]. }
    right. rewrite (randomInts_comp q (inject_Z z) this Hq).
    change (Fin (inject_Z z)) with (of_Z z).
    destruct (Z.eq_dec z 0) as [Hz0|Hz0].
    + left. rewrite Hz0 in *. split; [exact Heq | apply randomInts_zero].
    + right. destruct (randomInts_spec z this ltac:(lia) Hv)
        as (p & this' & Hrun & Hperm & Hiter & _).
      exists z, p. rewrite <- Hiter. repeat split; try assumption; lia.
  - assert (He : e = RangeError).
    { unfold new_Array in E. destruct (_ && _); [discriminate E | congruence]. }
    subst e. left. split; [reflexivity|].
    unfold randomInts, bind, lift. rewrite E. reflexivity.
  - unfold new_Array in E. destruct (_ && _); discriminate E.
Qed.

End ArgumentFacts.

(* ################################################################# *)
(** * Strings of digits *)

Module StringFacts.
Import JS JSFacts RandomLCG Spec LCGFacts.
Import String.
Local Open Scope string_scope.







End StringFacts.

(* ################################################################# *)
(** * Counting permutations *)

Module Counting.
Import JS JSFacts RandomLCG Spec LCGFacts.
Local Open Scope Z_scope.















End Counting.

(* ################################################################# *)
(** * randomInts as a selection *)

Module SelectionFacts.
Import JS JSFacts RandomLCG Spec LCGFacts.
Local Open Scope Z_scope.

Lemma selection_step (r : nat) (f1 f2 : list Z) (x k : Z) (this : t) :
  Z.of_nat (length f1) = k -> (length f1 + length f2 = r)%nat ->
  nextRange_ (of_Z (Z.of_nat (S r))) this = (Return (of_Z k), advance this) ->
  selection (S r) (f1 ++ x :: f2) this
  = (x :: fst (selection r (f1 ++ f2) (advance this)),
     snd (selection r (f1 ++ f2) (advance this))).
Proof.
  intros Hk Hr Hnext. cbn [selection].
  assert (Hlen : length (f1 ++ x :: f2) = S r)
    by (rewrite length_app; cbn [length]; lia).
  rewrite Hlen. unfold nextRange, bind, ret. rewrite Hnext.
  assert (Hi : Z.to_nat (to_Z (of_Z k)) = length f1).
  { unfold to_Z, of_Z. rewrite Qfloor_Z. lia. }
  rewrite Hi. rewrite nth_middle.
  assert (Hfirst : firstn (length f1) (f1 ++ x :: f2) = f1).
  { rewrite firstn_app, Nat.sub_diag, firstn_all. cbn [firstn]. apply app_nil_r. }
  assert (Hskip : skipn (S (length f1)) (f1 ++ x :: f2) = f2).
  { rewrite skipn_app, skipn_all2 by lia.
    replace (S (length f1) - length f1)%nat with 1%nat by lia. reflexivity. }
  rewrite Hfirst, Hskip.
  destruct (selection r (f1 ++ f2) (advance this)) as [output this'']. reflexivity.
Qed.

(** The second loop makes the selection among the numbers still in
    [src]. *)
Lemma do_while_selection (count : nat) (r : nat) :
  forall (fuel : nat) (placed sz : list Z) (this : t),
    (1 <= r <= fuel)%nat -> Z.of_nat count <= 4294967295 ->
    length sz = count -> length (filter nonneg sz) = r ->
    (length placed + r = count)%nat -> valid this ->
    do_while fuel (Z.of_nat count)
      {| v_set := map element placed ++ repeat (element (-1)) r;
         v_src := map element sz;
         v_m := of_Z (Z.of_nat r);
         v_setCount := Z.of_nat (length placed) |} this
    = (Return (map element (placed ++ fst (selection r (filter nonneg sz) this))),
       snd (selection r (filter nonneg sz) this)).
Proof.
  induction r as [|r IH]; intros fuel placed sz this Hr Hcount Hsz Hfil Hplaced Hv; [lia|].
  destruct fuel as [|fuel]; [lia|].
  cbn [do_while v_set v_src v_m v_setCount].
  destruct (nextRange__int this (Z.of_nat (S r)) Hv ltac:(lia)) as (k & Hk & Hnext & Hadv).
  unfold bind at 1. rewrite Hnext.
  rewrite Nat2Z.id.
  destruct (pick_spec sz [] 0 k (map element placed ++ repeat (element (-1)) (S r))
              (Z.of_nat (length placed)) ltac:(lia))
    as (x & f1 & f2 & sz' & Hf & Hl & Hlen & Hf' & Hp).
  cbn [app length] in Hp. change (Z.of_nat 0) with 0 in Hp.
  rewrite Hsz in Hp. rewrite Hp.
  cbn [repeat]. rewrite (set_at_middle (map element placed))
    by (rewrite length_map; reflexivity).
  pose proof (filter_nonneg_In sz f1 f2 x Hf) as Hx.
  assert (Hfl : (length f1 + length f2 = r)%nat).
  { rewrite Hf, length_app in Hfil. cbn [length] in Hfil. lia. }
  rewrite Hf, (selection_step r f1 f2 x k this ltac:(lia) Hfl Hnext). cbn [fst snd].
  destruct r as [|r].
  - (* the last number *)
    cbn [repeat].
    rewrite (get_middle (map element placed) [] (element x))
      by (rewrite length_map; lia).
    rewrite negative_element. destruct (Z.ltb_spec x 0) as [|_]; [lia|].
    unfold ret. rewrite map_app. reflexivity.
  - (* more to move *)
    assert (Hget : get (map element placed ++ element x :: repeat (element (-1)) (S r))
                     (Z.of_nat count - 1) = element (-1)).
    { replace (repeat (element (-1)) (S r)) with (repeat (element (-1)) r ++ [element (-1)])
        by (rewrite <- repeat_cons; reflexivity).
      change (map element placed ++ element x :: repeat (element (-1)) r ++ [element (-1)])
        with (map element placed ++ (element x :: repeat (element (-1)) r) ++ [element (-1)]).
      rewrite app_assoc. apply get_middle.
      rewrite length_app, length_map. cbn [length]. rewrite repeat_length. lia. }
    rewrite Hget, negative_element. change (-1 <? 0) with true. cbv iota.
    rewrite sub_int by lia.
    replace (Z.of_nat (S (S r)) - 1) with (Z.of_nat (S r)) by lia.
    replace (Z.of_nat (length placed) + 1) with (Z.of_nat (length (placed ++ [x])))
      by (rewrite length_app; cbn [length]; lia).
    replace (map element placed ++ element x :: repeat (element (-1)) (S r))
      with (map element (placed ++ [x]) ++ repeat (element (-1)) (S r))
      by (rewrite map_app, <- app_assoc; reflexivity).
    rewrite (IH fuel (placed ++ [x]) sz' (advance this)).
    + rewrite Hf', <- app_assoc. reflexivity.
    + lia.
    + exact Hcount.
    + lia.
    + rewrite Hf', length_app. exact Hfl.
    + rewrite length_app. cbn [length]. lia.
    + exact Hadv.
Qed.

End SelectionFacts.

(* ################################################################# *)
(** * Further properties of the generator *)

Module MoreProperties.

Import JS JSFacts RoundingFacts RandomLCG Spec Period Orbit.
Import LCGFacts RangeFacts FloatFacts ArgumentFacts StringFacts Counting SelectionFacts.

Local Open Scope Z_scope.

Lemma nextInt_of_Z (s : Z) :
  0 <= s < 4294967296 ->
  nextInt {| seed_ := of_Z s |} = (Return (of_Z (lcg s)), {| seed_ := of_Z (lcg s) |}).
Proof.
  intros Hs. unfold nextInt, bind, ret.
  pose proof (nextInt__spec (inject_Z s) s Hs (Qeq_refl _)) as H.
  change (Fin (inject_Z s)) with (of_Z s) in H. rewrite H. reflexivity.
Qed.

Lemma iter_advance_N (k : N) (s : Z) :
  0 <= s < 4294967296 ->
  N.iter k advance {| seed_ := of_Z s |}
  = {| seed_ := of_Z (Nat.iter (N.to_nat k) lcg s) |}.
Proof.
  intros Hs. rewrite N2Nat.inj_iter. apply (iter_advance (N.to_nat k) s Hs).
Qed.

Lemma state_inj (x y : Z) : {| seed_ := of_Z x |} = {| seed_ := of_Z y |} -> x = y.
Proof. intros H. apply of_Z_inj. congruence. Qed.

(** X4: every integer [x] of [[0, m)] is the result of [nextInt] from
    exactly one seed of [[0, m)], [((x - c) * 4276115653) mod m]: the
    transition is a bijection, and a result determines the seed before
    it. *)
Theorem transition_bijective (s x : Z) :
  0 <= s < 4294967296 -> 0 <= x < 4294967296 ->
  0 <= prev x < 4294967296 /\
  nextInt {| seed_ := of_Z (prev x) |} = (Return (of_Z x), {| seed_ := of_Z x |}) /\
  (nextInt {| seed_ := of_Z s |} = (Return (of_Z x), {| seed_ := of_Z x |}) <-> s = prev x).
Proof.
  intros Hs Hx. split; [apply prev_range|].
  assert (Hp : nextInt {| seed_ := of_Z (prev x) |}
               = (Return (of_Z x), {| seed_ := of_Z x |})).
  { rewrite (nextInt_of_Z _ (prev_range x)), (lcg_prev x Hx). reflexivity. }
  split; [exact Hp|]. split.
  - rewrite (nextInt_of_Z s Hs). intros H.
    assert (Hl : lcg s = x) by (apply state_inj; congruence).
    rewrite <- Hl. symmetry. apply prev_lcg. exact Hs.
  - intros ->. exact Hp.
Qed.

Lemma transition_bijective_witness :
  0 <= 0 < 4294967296 /\ 0 <= 1013904223 < 4294967296 /\
  prev 1013904223 = 0 /\
  nextInt {| seed_ := of_Z (prev 1013904223) |}
  = (Return (of_Z 1013904223), {| seed_ := of_Z 1013904223 |}).
Proof.
  split; [lia|]. split; [lia|]. split; [reflexivity|].
  exact (proj1 (proj2 (transition_bijective 0 1013904223 ltac:(lia) ltac:(lia)))).
Defined.

(** X5: the low-order bits are weak, as the comment in [nextRange_] says:
    the lowest [j] bits of the seed are back after [k] calls of [nextInt]
    exactly when [2^j] divides [k]; the lowest bit alternates. *)
Theorem low_bits_period (s : Z) (j : nat) (k : N) :
  0 <= s < 4294967296 -> (j <= 32)%nat ->
  exists s' : Z,
    N.iter k advance {| seed_ := of_Z s |} = {| seed_ := of_Z s' |} /\
    0 <= s' < 4294967296 /\
    (s' mod 2 ^ Z.of_nat j = s mod 2 ^ Z.of_nat j <-> (2 ^ Z.of_nat j | Z.of_N k)) /\
    lcg s mod 2 = 1 - s mod 2.
Proof.
  intros Hs Hj. exists (Nat.iter (N.to_nat k) lcg s).
  split; [apply iter_advance_N; exact Hs|].
  split; [apply iter_lcg_range; exact Hs|]. split.
  - rewrite <- N_nat_Z. apply iter_lcg_low_bits; assumption.
  - unfold lcg.
    rewrite (Z.mod_mod_divide _ 4294967296 2) by (exists 2147483648; reflexivity).
    replace (s * 1664525 + 1013904223) with (s + 1 + (s * 832262 + 506952111) * 2) by ring.
    rewrite Z.mod_add by lia.
    pose proof (Z.mod_pos_bound s 2 ltac:(lia)) as Hm.
    pose proof (Z.div_mod s 2 ltac:(lia)) as Hd.
    assert (Hc : s mod 2 = 0 \/ s mod 2 = 1) by lia.
    destruct Hc as [E|E]; rewrite E.
    + replace (s + 1) with (1 + (s / 2) * 2) by lia.
      rewrite Z.mod_add by lia. reflexivity.
    + replace (s + 1) with (0 + (s / 2 + 1) * 2) by lia.
      rewrite Z.mod_add by lia. reflexivity.
Qed.

Lemma low_bits_period_witness :
  0 <= 0 < 4294967296 /\ (8 <= 32)%nat /\
  exists s', N.iter 256 advance {| seed_ := of_Z 0 |} = {| seed_ := of_Z s' |} /\
             s' mod 256 = 0.
Proof.
  split; [lia|]. split; [lia|].
  destruct (low_bits_period 0 8 256 ltac:(lia) ltac:(lia)) as (s' & H1 & _ & H2 & _).
  exists s'. split; [exact H1|].
  apply (proj2 H2). exists 1. reflexivity.
Defined.

(** X6: from every seed of [[0, m)] the calls of [nextInt] reach every
    integer of [[0, m)], each at exactly one of the first [m] calls. *)
Theorem every_value_once (s x : Z) :
  0 <= s < 4294967296 -> 0 <= x < 4294967296 ->
  exists k : N,
    (k < 4294967296)%N /\
    N.iter k advance {| seed_ := of_Z s |} = {| seed_ := of_Z x |} /\
    forall k' : N,
      (k' < 4294967296)%N ->
      N.iter k' advance {| seed_ := of_Z s |} = {| seed_ := of_Z x |} -> k' = k.
Proof.
  intros Hs Hx. destruct (iter_lcg_reaches s x Hs Hx) as (k & Hk & Hit).
  exists (N.of_nat k). split; [lia|]. split.
  - rewrite (iter_advance_N _ s Hs), Nat2N.id, Hit. reflexivity.
  - intros k' Hk' H. rewrite (iter_advance_N _ s Hs) in H. apply state_inj in H.
    assert (N.to_nat k' = k); [|lia].
    apply (iter_lcg_once s); [exact Hs | lia | lia | congruence].
Qed.

Lemma every_value_once_witness :
  0 <= 0 < 4294967296 /\ 0 <= 1196435762 < 4294967296 /\
  exists k, (k < 4294967296)%N /\
    N.iter k advance {| seed_ := of_Z 0 |} = {| seed_ := of_Z 1196435762 |}.
Proof.
  split; [lia|]. split; [lia|].
  destruct (every_value_once 0 1196435762 ltac:(lia) ltac:(lia)) as (k & Hk & H & _).
  exists k. split; assumption.
Defined.


(** X7: for a bound [n = u * 2^j] with [u <= 2^21] and [j <= 32], so for
    every integer up to 2097152 and every power of two up to [m],
    [nextRange(n)] rounds nothing: it returns [floor(x * n / m)] for the
    draw [x].  The draws that give the outcome [k] are those of
    [[first_draw n k, first_draw n (k+1))], intervals that tile [[0, m)] and
    hold [floor(m/n)] draws or one more. *)
Theorem nextRange_exact (s n u j : Z) :
  0 <= s < 4294967296 ->
  n = u * 2 ^ j -> 1 <= u <= 2097152 -> 0 <= j <= 32 ->
  nextRange (of_Z n) {| seed_ := of_Z s |}
    = (Return (of_Z ((lcg s * n) / 4294967296)), {| seed_ := of_Z (lcg s) |}) /\
  (forall k, (lcg s * n) / 4294967296 = k
             <-> first_draw n k <= lcg s < first_draw n (k + 1)) /\
  (forall k, 4294967296 / n <= first_draw n (k + 1) - first_draw n k
             <= 4294967296 / n + 1) /\
  first_draw n 0 = 0 /\ first_draw n n = 4294967296.
Proof.
  intros Hs -> Hu Hj.
  assert (Hn : 0 < u * 2 ^ j).
  { assert (0 < 2 ^ j) by (apply Z.pow_pos_nonneg; lia). nia. }
  split; [|split; [|split]].
  - unfold nextRange, bind, ret, nextRange_.
    rewrite le_int. destruct (Z.leb_spec (u * 2 ^ j) 0) as [|_]; [lia|].
    pose proof (nextInt__spec (inject_Z s) s Hs (Qeq_refl _)) as H.
    change (Fin (inject_Z s)) with (of_Z s) in H.
    unfold bind, ret. rewrite H. unfold m.
    rewrite (floor_scaled_exact (lcg s) u j (lcg_range s) Hu Hj). reflexivity.
  - intros k. apply scaled_interval. exact Hn.
  - intros k. apply first_draw_step. exact Hn.
  - apply first_draw_ends. exact Hn.
Qed.

Lemma nextRange_exact_witness :
  0 <= 0 < 4294967296 /\ 10 = 10 * 2 ^ 0 /\ 1 <= 10 <= 2097152 /\ 0 <= 0 <= 32 /\
  nextRange (of_Z 10) {| seed_ := of_Z 0 |}
  = (Return (of_Z 2), {| seed_ := of_Z 1013904223 |}) /\
  first_draw 10 2 <= 1013904223 < first_draw 10 3.
Proof.
  split; [lia|]. split; [reflexivity|]. split; [lia|]. split; [lia|].
  destruct (nextRange_exact 0 10 10 0 ltac:(lia) eq_refl ltac:(lia) ltac:(lia))
    as (H1 & H2 & _).
  split; [exact H1 | apply (proj1 (H2 2)); reflexivity].
Defined.

Lemma nextRange_unfold' (n : number) (this : t) : nextRange n this = nextRange_ n this.
Proof.
  unfold nextRange, bind, ret. destruct (nextRange_ n this) as [[x| |] this']; reflexivity.
Qed.

(** X8: what [nextRange] does with the bounds its guard lets through: for
    every finite [n > 0], integer or not, the result is an integer [k] with
    [0 <= k < n] (so 0 for [n <= 1]); [nextRange(NaN)] does not throw, it
    returns NaN; [nextRange(Infinity)] returns Infinity, or NaN when the
    draw is 0.  All three use up a draw. *)
Theorem nextRange_any_bound (this : t) :
  valid this ->
  (forall q : Q,
     is_double (Fin q) = true -> (0 < q)%Q ->
     exists k : Z,
       nextRange (Fin q) this = (Return (of_Z k), advance this) /\
       0 <= k /\ (inject_Z k < q)%Q /\ ((q <= 1)%Q -> k = 0)) /\
  nextRange NaN this = (Return NaN, advance this) /\
  nextRange PosInf this
    = (Return (if eq (seed_ (advance this)) (of_Z 0) then NaN else PosInf),
       advance this).
Proof.
  intros Hv. destruct (nextInt__valid this Hv) as (x & Hx & Hnext).
  assert (Hadv : advance this = {| seed_ := of_Z x |})
    by (unfold advance; rewrite Hnext; reflexivity).
  rewrite Hadv. split; [|split].
  - intros q Hq Hpos. rewrite nextRange_unfold'. unfold nextRange_.
    assert (Hle : le (Fin q) (of_Z 0) = false).
    { unfold le, compare, of_Z. change (inject_Z 0) with 0%Q.
      destruct (Qcompare_spec q 0) as [E|E|E]; try reflexivity; lra. }
    rewrite Hle. unfold bind, ret. rewrite Hnext. unfold m.
    destruct (floor_scaled_positive x q Hx Hpos (is_double_bound q Hq Hpos))
      as (k & Hk & Hk0 & Hk1).
    exists k. rewrite Hk. split; [reflexivity|]. split; [exact Hk0|]. split; [exact Hk1|].
    intros H1. assert (inject_Z k < inject_Z 1)%Q by (change (inject_Z 1) with 1%Q; lra).
    rewrite <- Zlt_Qlt in H. lia.
  - rewrite nextRange_unfold'. unfold nextRange_, bind, ret.
    change (le NaN (of_Z 0)) with false. cbv beta iota. rewrite Hnext.
    unfold m. rewrite div_pow2_32 by lia. reflexivity.
  - rewrite nextRange_unfold'. unfold nextRange_, bind, ret.
    change (le PosInf (of_Z 0)) with false. cbv beta iota. rewrite Hnext.
    unfold m. rewrite div_pow2_32 by lia. cbn [seed_]. rewrite eq_int.
    f_equal. f_equal. unfold mul, Math_floor.
    assert (Hc : Qcompare (Qred (inject_Z x / inject_Z 4294967296)) 0
                 = Z.compare x 0).
    { rewrite Qred_correct.
      unfold Qcompare, Qdiv, Qmult, Qinv, inject_Z. simpl.
      rewrite !Z.mul_1_r. reflexivity. }
    rewrite Hc. destruct (Z.eqb_spec x 0) as [->|Hne]; [reflexivity|].
    destruct (Z.compare_spec x 0); [lia | lia | reflexivity].
Qed.

Lemma nextRange_any_bound_witness :
  valid {| seed_ := of_Z 0 |} /\
  nextRange NaN {| seed_ := of_Z 0 |} = (Return NaN, {| seed_ := of_Z 1013904223 |}) /\
  exists k, nextRange (Fin (5 # 2)) {| seed_ := of_Z 0 |}
            = (Return (of_Z k), {| seed_ := of_Z 1013904223 |}) /\ 0 <= k < 3.
Proof.
  split; [reflexivity|].
  destruct (nextRange_any_bound {| seed_ := of_Z 0 |} eq_refl) as (H1 & H2 & _).
  split; [exact H2|].
  destruct (H1 (5 # 2)%Q eq_refl eq_refl) as (k & Hk & Hk0 & Hk1 & _).
  exists k. split; [exact Hk|]. split; [exact Hk0|].
  assert (inject_Z k < inject_Z 3)%Q.
  { apply Qlt_trans with (5 # 2)%Q; [exact Hk1 | reflexivity]. }
  rewrite <- Zlt_Qlt in H. exact H.
Defined.

(** X9: [nextFloat] keeps the order of the draws, strictly: of two states
    the one whose new seed is larger returns the larger float; so equal
    floats come from equal seeds, and the float determines the state. *)
Theorem nextFloat_injective (s1 s2 : Z) :
  0 <= s1 < 4294967296 -> 0 <= s2 < 4294967296 ->
  exists f1 f2 : number,
    nextFloat {| seed_ := of_Z s1 |} = (Return f1, {| seed_ := of_Z (lcg s1) |}) /\
    nextFloat {| seed_ := of_Z s2 |} = (Return f2, {| seed_ := of_Z (lcg s2) |}) /\
    (lcg s1 < lcg s2 -> lt f1 f2 = true) /\
    (eq f1 f2 = true -> s1 = s2).
Proof.
  intros H1 H2.
  assert (Hf : forall s, 0 <= s < 4294967296 ->
            nextFloat {| seed_ := of_Z s |}
            = (Return (div (of_Z (lcg s)) (of_Z 4294967295)), {| seed_ := of_Z (lcg s) |})).
  { intros s Hs. unfold nextFloat, bind, ret.
    pose proof (nextInt__spec (inject_Z s) s Hs (Qeq_refl _)) as H.
    change (Fin (inject_Z s)) with (of_Z s) in H. rewrite H.
    replace (sub m (of_Z 1)) with (of_Z 4294967295) by (symmetry; apply sub_int; lia).
    reflexivity. }
  exists (div (of_Z (lcg s1)) (of_Z 4294967295)), (div (of_Z (lcg s2)) (of_Z 4294967295)).
  split; [apply Hf; exact H1|]. split; [apply Hf; exact H2|].
  pose proof (lcg_range s1) as R1. pose proof (lcg_range s2) as R2.
  split.
  - intros Hlt. apply div_unit_increasing; lia.
  - intros Heq. apply lcg_injective; [exact H1 | exact H2|].
    destruct (Z.lt_trichotomy (lcg s1) (lcg s2)) as [L|[E|L]]; [|exact E|]; exfalso.
    + pose proof (div_unit_increasing (lcg s1) (lcg s2) ltac:(lia) L ltac:(lia)) as Hc.
      unfold lt in Hc. unfold eq in Heq.
      destruct (compare _ _) as [[| |]|]; discriminate.
    + pose proof (div_unit_increasing (lcg s2) (lcg s1) ltac:(lia) L ltac:(lia)) as Hc.
      unfold lt in Hc. unfold eq in Heq.
      destruct (div (of_Z (lcg s1)) (of_Z 4294967295)) as [| | |v1];
      destruct (div (of_Z (lcg s2)) (of_Z 4294967295)) as [| | |v2];
        try discriminate.
      unfold compare in Hc, Heq.
      destruct (Qcompare_spec v1 v2); destruct (Qcompare_spec v2 v1);
        try discriminate; lra.
Qed.

Lemma nextFloat_injective_witness :
  0 <= 0 < 4294967296 /\ 0 <= 1 < 4294967296 /\
  exists f1 f2,
    fst (nextFloat {| seed_ := of_Z 0 |}) = Return f1 /\
    fst (nextFloat {| seed_ := of_Z 1 |}) = Return f2 /\ lt f1 f2 = true.
Proof.
  split; [lia|]. split; [lia|].
  destruct (nextFloat_injective 0 1 ltac:(lia) ltac:(lia)) as (f1 & f2 & H1 & H2 & H3 & _).
  exists f1, f2. rewrite H1, H2. split; [reflexivity|]. split; [reflexivity|].
  apply H3. reflexivity.
Defined.

Lemma state_eta (this : t) : {| seed_ := seed_ this |} = this.
Proof. destruct this; reflexivity. Qed.

(** X10: the number [getSeed] returns for a state that satisfies the seed
    invariant is one [setSeed] accepts, on any object, and it makes that
    object the state it was read from; so a caller who saves the seed, makes
    calls and restores it gets the same outcomes from the same calls
    again. *)
Theorem seed_save_restore (this other : t) (ops : list call) :
  valid this ->
  getSeed this = (Return (seed_ this), this) /\
  setSeed (seed_ this) other = (Return tt, this) /\
  drive ops (snd (setSeed (seed_ this) (snd (drive ops this)))) = drive ops this.
Proof.
  intros Hv.
  assert (Hset : forall o, setSeed (seed_ this) o = (Return tt, this)).
  { intros o. unfold setSeed, bind, lift, write_seed_.
    rewrite (checkSeed_valid _ Hv). rewrite state_eta. reflexivity. }
  split; [reflexivity|]. split; [apply Hset|]. rewrite Hset. reflexivity.
Qed.

Lemma seed_save_restore_witness :
  valid {| seed_ := of_Z 7 |} /\
  setSeed (of_Z 7) {| seed_ := of_Z 99 |} = (Return tt, {| seed_ := of_Z 7 |}).
Proof.
  split; [reflexivity|].
  exact (proj1 (proj2 (seed_save_restore {| seed_ := of_Z 7 |} {| seed_ := of_Z 99 |} []
                         eq_refl))).
Defined.

(** X11: constructed without a seed when the clock reads [t] milliseconds,
    the object starts at [t mod m], as if [t] had been passed; two such
    objects start in the same state exactly when their clock readings
    differ by a multiple of [m], so never when they are made less than
    [2^32] ms apart at different readings, and always when they are made
    within the same millisecond. *)
Theorem default_seed_clock (t1 t2 : Z) (now : number) :
  0 <= t1 < 2 ^ 53 -> 0 <= t2 < 2 ^ 53 ->
  constructor (of_Z t1) None = Return {| seed_ := of_Z (t1 mod 4294967296) |} /\
  constructor (of_Z t1) None = constructor now (Some (of_Z t1)) /\
  (constructor (of_Z t1) None = constructor (of_Z t2) None
   <-> (4294967296 | t2 - t1)) /\
  (0 < t2 - t1 < 4294967296 ->
   constructor (of_Z t1) None <> constructor (of_Z t2) None).
Proof.
  intros H1 H2.
  assert (Hc : forall t now', 0 <= t ->
            constructor now' (Some (of_Z t))
            = Return {| seed_ := of_Z (t mod 4294967296) |}).
  { intros t now' Ht. unfold of_Z at 1. rewrite constructor_Fin.
    rewrite Qabs_pos by (change 0%Q with (inject_Z 0); rewrite <- Zle_Qle; lia).
    rewrite Qfloor_Z. reflexivity. }
  assert (Hd : forall t, constructor (of_Z t) None = constructor (of_Z t) (Some (of_Z t)))
    by reflexivity.
  assert (Hiff : constructor (of_Z t1) None = constructor (of_Z t2) None
                 <-> (4294967296 | t2 - t1)).
  { rewrite !Hd, !Hc by lia. split.
    - intros H. injection H as H.
      apply Z.mod_divide; [lia|]. rewrite Zminus_mod, H, Z.sub_diag. reflexivity.
    - intros [k Hk]. replace t2 with (t1 + k * 4294967296) by lia.
      rewrite Z.mod_add by lia. reflexivity. }
  split; [rewrite Hd; apply Hc; lia|].
  split; [rewrite Hd, !Hc by lia; reflexivity|].
  split; [exact Hiff|].
  intros Hlt H. apply Hiff in H. destruct H as [k Hk]. nia.
Qed.

Lemma default_seed_clock_witness :
  0 <= 1700000000000 < 2 ^ 53 /\ 0 <= 1700000000001 < 2 ^ 53 /\
  constructor (of_Z 1700000000000) None = Return {| seed_ := of_Z 3487918080 |} /\
  constructor (of_Z 1700000000000) None <> constructor (of_Z 1700000000001) None.
Proof.
  split; [lia|]. split; [lia|].
  destruct (default_seed_clock 1700000000000 1700000000001 NaN ltac:(lia) ltac:(lia))
    as (H1 & _ & _ & H4).
  split; [exact H1 | apply H4; lia].
Defined.

(** X12: [randomInts] on every argument, from a state that satisfies the
    seed invariant.  An argument that is not an integer of [[0, 2^32 - 1]]
    (a fraction, a negative number, NaN, an infinity, [2^32] or more) is
    refused by [new Array] with a RangeError and 0 by [nextRange_]; both
    leave the state alone.  Every other argument gives a permutation of
    [0 .. n-1] after exactly [n] draws.  There is no partly filled
    result and no failure after a draw. *)
Theorem randomInts_all_or_nothing (n : number) (this : t) :
  valid this ->
  (is_integer n && le (of_Z 0) n && le n (of_Z 4294967295) = false ->
     randomInts n this = (Throw RangeError, this)) /\
  (eq n (of_Z 0) = true -> randomInts n this = (Throw NotPositive, this)) /\
  (is_integer n && le (of_Z 1) n && le n (of_Z 4294967295) = true ->
     exists p : list Z,
       randomInts n this
         = (Return (map element p), Nat.iter (Z.to_nat (to_Z n)) advance this) /\
       Permutation p (integers (Z.to_nat (to_Z n))) /\
       eq n (of_Z (to_Z n)) = true /\ 1 <= to_Z n <= 4294967295).
Proof.
  intros Hv.
  assert (Heq : forall z, eq n (of_Z z) = true -> exists q, n = Fin q /\ (q == inject_Z z)%Q).
  { intros z. destruct n as [| | |q]; try discriminate. unfold eq, compare, of_Z.
    destruct (Qcompare_spec q (inject_Z z)) as [E|E|E]; try discriminate.
    intros _. exists q. split; [reflexivity | exact E]. }
  assert (HtoZ : forall q z, (q == inject_Z z)%Q -> to_Z (Fin q) = z).
  { intros q z E. unfold to_Z. rewrite E. apply Qfloor_Z. }
  destruct (randomInts_cases n this Hv)
    as [[Hnew Hrun] | [[Hz Hrun] | (z & p & Hz & Hn & Hrun & Hperm)]].
  - split; [intros _; exact Hrun|]. split.
    + intros H0. exfalso. destruct (Heq 0 H0) as (q & -> & E).
      unfold new_Array in Hnew.
      replace (is_integer (Fin q) && le (of_Z 0) (Fin q) && le (Fin q) (of_Z 4294967295))
        with true in Hnew; [discriminate Hnew|].
      symmetry. unfold is_integer, le, compare, of_Z.
      assert (Hf : Qfloor q = 0) by (rewrite E; apply Qfloor_Z).
      rewrite Hf.
      assert (H1 : Qeq_bool q (inject_Z 0) = true) by (apply Qeq_bool_iff; exact E).
      rewrite H1. change (inject_Z 0) with 0%Q in *.
      destruct (Qcompare_spec 0 q) as [C|C|C]; try lra.
      destruct (Qcompare_spec q (inject_Z 4294967295)) as [C'|C'|C']; try reflexivity.
      change (inject_Z 4294967295) with 4294967295%Q in C'. lra.
    + intros H1. exfalso. unfold new_Array in Hnew.
      replace (is_integer n && le (of_Z 0) n && le n (of_Z 4294967295))
        with true in Hnew; [discriminate Hnew|].
      symmetry. apply andb_true_iff in H1. destruct H1 as [H1 H3].
      apply andb_true_iff in H1. destruct H1 as [H1 H2].
      rewrite H1, H3, andb_true_r. simpl.
      destruct n as [| | |q]; try discriminate.
      unfold le, compare, of_Z in *.
      destruct (Qcompare_spec (inject_Z 1) q) as [C|C|C]; try discriminate;
        change (inject_Z 1) with 1%Q in C;
        destruct (Qcompare_spec (inject_Z 0) q) as [D|D|D]; try reflexivity;
        change (inject_Z 0) with 0%Q in D; lra.
  - destruct (Heq 0 Hz) as (q & -> & E).
    split; [|split].
    + intros H. exfalso. revert H. unfold is_integer, le, compare, of_Z.
      assert (Hf : Qfloor q = 0) by (rewrite E; apply Qfloor_Z).
      rewrite Hf.
      assert (H1 : Qeq_bool q (inject_Z 0) = true) by (apply Qeq_bool_iff; exact E).
      rewrite H1. change (inject_Z 0) with 0%Q in *.
      destruct (Qcompare_spec 0 q) as [C|C|C]; try lra.
      destruct (Qcompare_spec q (inject_Z 4294967295)) as [C'|C'|C']; try discriminate.
      change (inject_Z 4294967295) with 4294967295%Q in C'. lra.
    + intros _. exact Hrun.
    + intros H. exfalso. revert H. unfold is_integer, le, compare, of_Z.
      change (inject_Z 0) with 0%Q in E. change (inject_Z 1) with 1%Q.
      destruct (Qcompare_spec 1 q) as [C|C|C];
        first [lra | rewrite andb_false_r; discriminate].
  - destruct (Heq z Hn) as (q & -> & E).
    rewrite (HtoZ q z E).
    split; [|split].
    + intros H. exfalso. revert H. unfold is_integer, le, compare, of_Z.
      assert (Hf : Qfloor q = z) by (rewrite E; apply Qfloor_Z).
      rewrite Hf.
      assert (H1 : Qeq_bool q (inject_Z z) = true) by (apply Qeq_bool_iff; exact E).
      rewrite H1.
      assert (E0 : (inject_Z 0 < q)%Q) by (rewrite E, <- Zlt_Qlt; lia).
      assert (E1 : (q <= inject_Z 4294967295)%Q) by (rewrite E, <- Zle_Qle; lia).
      destruct (Qcompare_spec (inject_Z 0) q) as [C|C|C]; try lra.
      destruct (Qcompare_spec q (inject_Z 4294967295)) as [C'|C'|C']; try discriminate.
      lra.
    + intros H0. exfalso. destruct (Heq 0 H0) as (q' & Hq' & E').
      assert (q' = q) by congruence. subst q'.
      assert (inject_Z z == inject_Z 0)%Q by (rewrite <- E, E'; reflexivity).
      rewrite inject_Z_injective in H. lia.
    + intros _. exists p. split; [exact Hrun|]. split; [exact Hperm|].
      split; [exact Hn | exact Hz].
Qed.

Lemma randomInts_all_or_nothing_witness :
  valid {| seed_ := of_Z 0 |} /\
  randomInts (Fin (5 # 2)) {| seed_ := of_Z 0 |} = (Throw RangeError, {| seed_ := of_Z 0 |}) /\
  exists p, fst (randomInts (of_Z 3) {| seed_ := of_Z 0 |}) = Return (map element p) /\
            Permutation p (integers 3).
Proof.
  split; [reflexivity|].
  split.
  - exact (proj1 (randomInts_all_or_nothing (Fin (5 # 2)) {| seed_ := of_Z 0 |} eq_refl) eq_refl).
  - destruct (proj2 (proj2 (randomInts_all_or_nothing (of_Z 3) {| seed_ := of_Z 0 |} eq_refl))
               eq_refl) as (p & Hrun & Hperm & _).
    exists p. rewrite Hrun. split; [reflexivity | exact Hperm].
Defined.

(** X13: no call fails half way.  From a state that satisfies the seed
    invariant a call that throws has made no draw and leaves the state as it
    was; the only calls that throw are [nextRange(n)] with [n <= 0] and
    [randomInts(n)] with [n = 0] or an [n] that is no array length; and a
    caller who catches the error continues as if the call had not been
    made. *)
Theorem failed_call_no_effect (op : call) (this this' : t) (e : Error)
    (ops : list call) :
  valid this -> perform op this = (Throw e, this') ->
  this' = this /\
  ((exists n, op = NextRange n /\ le n (of_Z 0) = true /\ e = NotPositive) \/
   (exists n, op = RandomInts n /\ eq n (of_Z 0) = true /\ e = NotPositive) \/
   (exists n, op = RandomInts n /\ new_Array n = Throw RangeError /\ e = RangeError)) /\
  drive (op :: ops) this = (Throw e :: fst (drive ops this), snd (drive ops this)).
Proof.
  intros Hv Hrun.
  assert (H : this' = this /\
    ((exists n, op = NextRange n /\ le n (of_Z 0) = true /\ e = NotPositive) \/
     (exists n, op = RandomInts n /\ eq n (of_Z 0) = true /\ e = NotPositive) \/
     (exists n, op = RandomInts n /\ new_Array n = Throw RangeError /\ e = RangeError))).
  { destruct (nextInt__valid this Hv) as (x & Hx & Hnext).
    destruct op as [| | | |n|n]; unfold perform, map_M, bind, ret in Hrun.
    - discriminate Hrun.
    - discriminate Hrun.
    - unfold nextInt, bind, ret in Hrun. rewrite Hnext in Hrun. discriminate Hrun.
    - unfold nextFloat, bind, ret in Hrun. rewrite Hnext in Hrun. discriminate Hrun.
    - unfold nextRange, bind, ret, nextRange_ in Hrun.
      destruct (le n (of_Z 0)) eqn:E.
      + unfold throw in Hrun. injection Hrun as <- <-.
        split; [reflexivity|]. left. exists n. auto.
      + unfold bind, ret in Hrun. rewrite Hnext in Hrun. discriminate Hrun.
    - destruct (randomInts_cases n this Hv)
        as [[Hnew Hr] | [[Hz Hr] | (z & p & Hz & Hn & Hr & Hperm)]];
        rewrite Hr in Hrun.
      + injection Hrun as <- <-. split; [reflexivity|]. right. right. exists n. auto.
      + injection Hrun as <- <-. split; [reflexivity|]. right. left. exists n. auto.
      + discriminate Hrun. }
  destruct H as [-> Hop]. split; [reflexivity|]. split; [exact Hop|].
  cbn [drive]. rewrite Hrun. destruct (drive ops this) as [os this'']. reflexivity.
Qed.

Lemma failed_call_no_effect_witness :
  valid {| seed_ := of_Z 0 |} /\
  perform (NextRange (of_Z 0)) {| seed_ := of_Z 0 |}
    = (Throw NotPositive, {| seed_ := of_Z 0 |}) /\
  drive [NextRange (of_Z 0); NextInt] {| seed_ := of_Z 0 |}
    = (Throw NotPositive :: fst (drive [NextInt] {| seed_ := of_Z 0 |}),
       snd (drive [NextInt] {| seed_ := of_Z 0 |})).
Proof.
  split; [reflexivity|]. split; [reflexivity|].
  exact (proj2 (proj2 (failed_call_no_effect (NextRange (of_Z 0)) {| seed_ := of_Z 0 |}
                         {| seed_ := of_Z 0 |} NotPositive [NextInt] eq_refl eq_refl))).
Defined.

(** X17: the new seed [r - Math.floor(r/m)*m] of [nextInt_] is the value
    of [r % m], from every seed of [[0, m)]: the formula written without
    the remainder operator and the operator agree on every state the
    generator can be in. *)
Theorem floor_formula_is_remainder (s : Z) :
  0 <= s < 4294967296 ->
  let r := add (mul (of_Z s) a) c in
  sub r (mul (Math_floor (div r m)) m) = rem r m /\
  nextInt {| seed_ := of_Z s |} = (Return (rem r m), {| seed_ := rem r m |}).
Proof.
  intros Hs r.
  destruct (nextInt__arith (inject_Z s) s Hs (Qeq_refl _)) as [Hr Hsub].
  change (Fin (inject_Z s)) with (of_Z s) in Hr, Hsub. fold r in Hr, Hsub.
  assert (Hrem : rem r m = of_Z (lcg s)).
  { rewrite Hr, rem_m_int by lia. reflexivity. }
  rewrite Hrem. split; [exact Hsub|].
  unfold nextInt, bind, ret.
  pose proof (nextInt__spec (inject_Z s) s Hs (Qeq_refl _)) as H.
  change (Fin (inject_Z s)) with (of_Z s) in H. rewrite H. reflexivity.
Qed.

Lemma floor_formula_is_remainder_witness :
  0 <= 4294967295 < 4294967296 /\
  nextInt {| seed_ := of_Z 4294967295 |}
  = (Return (rem (add (mul (of_Z 4294967295) a) c) m),
     {| seed_ := rem (add (mul (of_Z 4294967295) a) c) m |}).
Proof.
  split; [lia|].
  exact (proj2 (floor_formula_is_remainder 4294967295 ltac:(lia))).
Defined.



(** X19: [randomInts(n)] is the selection without replacement that the
    specification describes: the first number of the result is the one at
    position [nextRange(n)] of [0 .. n-1], the second the one at position
    [nextRange(n - 1)] of the numbers left, in their order, and so on down to
    [nextRange(1)]; the state at the end is the state after these [n]
    draws. *)
Theorem randomInts_refines_selection (n : Z) (this : t) :
  1 <= n <= 4294967295 -> valid this ->
  randomInts (of_Z n) this
  = (Return (map element
       (fst (selection (Z.to_nat n) (integers (Z.to_nat n)) this))),
     snd (selection (Z.to_nat n) (integers (Z.to_nat n)) this)).
Proof.
  intros Hn Hv. unfold randomInts, bind, lift.
  rewrite new_Array_int by lia.
  assert (Hz : to_Z (of_Z n) = n) by (unfold to_Z, of_Z; apply Qfloor_Z).
  rewrite Hz. rewrite fill_new.
  set (count := Z.to_nat n).
  pose proof (do_while_selection count count (S count) [] (integers count) this) as Hdo.
  cbn [map app length] in Hdo. change (Z.of_nat 0) with 0 in Hdo.
  replace (Z.of_nat count) with n in Hdo by lia.
  rewrite filter_nonneg_integers in Hdo. apply Hdo.
  - lia.
  - lia.
  - unfold integers. rewrite length_map, length_seq. reflexivity.
  - unfold integers. rewrite length_map, length_seq. reflexivity.
  - reflexivity.
  - exact Hv.
Qed.

Lemma randomInts_refines_selection_witness :
  1 <= 3 <= 4294967295 /\ valid {| seed_ := of_Z 0 |} /\
  randomInts (of_Z 3) {| seed_ := of_Z 0 |}
  = (Return (map element (fst (selection 3 [0; 1; 2] {| seed_ := of_Z 0 |}))),
     snd (selection 3 [0; 1; 2] {| seed_ := of_Z 0 |})).
Proof.
  split; [lia|]. split; [reflexivity|].
  exact (randomInts_refines_selection 3 {| seed_ := of_Z 0 |} ltac:(lia) eq_refl).
Defined.

Import String.
Local Open Scope string_scope.



End MoreProperties.

(* ################################################################# *)
(** * Further properties of the path *)

Module MorePathProperties.

Import JS JSFacts RoundingFacts CardioidPath.
Import String.
Local Open Scope Q_scope.

(** X15: where the cosine is exactly [-1], which is what [Math.cos]
    returns at the default end points [-Math.PI] and [Math.PI], both
    coordinates are 0 for every finite radius, whatever small value the
    sine has there: the end points of the path are at the origin, the cusp
    of the cardioid. *)
Theorem cardioid_cusp (Math_sin Math_cos : number -> number)
    (path : CardioidPath.t) (t0 : number) (r sn : Q) :
  a_ path = Fin r -> is_double (Fin r) = true ->
  Math_sin t0 = Fin sn -> -1 <= sn <= 1 ->
  Math_cos t0 = of_Z (-1) ->
  x_func Math_sin Math_cos t0 path = (of_Z 0, path) /\
  y_func Math_cos t0 path = (of_Z 0, path).
Proof.
  intros Ha Hr Hsin Hsn Hcos. unfold x_func, y_func. rewrite Ha, Hsin, Hcos.
  rewrite add_int by (cbv; split; reflexivity). change (1 + -1)%Z with 0%Z.
  destruct (mul_unit_finite r sn Hr Hsn) as [w ->].
  change (neg (Fin r)) with (Fin (- r)).
  rewrite (mul_minus_one r Hr), !mul_zero_r. split; reflexivity.
Qed.

Lemma cardioid_cusp_witness :
  let path := constructor "en"%string (of_Z 3) None None None None None in
  a_ path = Fin (inject_Z 3) /\ is_double (Fin (inject_Z 3)) = true /\
  -1 <= 0 <= 1 /\
  x_func (fun _ => Fin 0) (fun _ => of_Z (-1)) Math_PI path = (of_Z 0, path) /\
  y_func (fun _ => of_Z (-1)) Math_PI path = (of_Z 0, path).
Proof.
  intros path. split; [reflexivity|]. split; [reflexivity|]. split; [lra|].
  apply (cardioid_cusp (fun _ => Fin 0) (fun _ => of_Z (-1)) path Math_PI (inject_Z 3) 0);
    try reflexivity. lra.
Defined.

(** X16: the curve is symmetric about the vertical axis, exactly, rounding
    included: where the sine is odd and the cosine even at [t], [x_func(-t)]
    is [-x_func(t)] and [y_func(-t)] is [y_func(t)]. *)
Theorem cardioid_mirror (Math_sin Math_cos : number -> number)
    (path : CardioidPath.t) (t0 : number) :
  Math_sin (neg t0) = neg (Math_sin t0) -> Math_cos (neg t0) = Math_cos t0 ->
  fst (x_func Math_sin Math_cos (neg t0) path)
    = neg (fst (x_func Math_sin Math_cos t0 path)) /\
  fst (y_func Math_cos (neg t0) path) = fst (y_func Math_cos t0 path).
Proof.
  intros Hsin Hcos. unfold x_func, y_func. cbn [fst]. rewrite Hsin, Hcos.
  rewrite mul_neg_r, mul_neg_l. split; reflexivity.
Qed.

Lemma cardioid_mirror_witness :
  let path := constructor "en"%string (of_Z 3) None None None None None in
  fst (x_func (fun x => x) (fun _ => of_Z 1) (neg (of_Z 2)) path)
  = neg (fst (x_func (fun x => x) (fun _ => of_Z 1) (of_Z 2) path)).
Proof.
  intros path.
  exact (proj1 (cardioid_mirror (fun x => x) (fun _ => of_Z 1) path (of_Z 2)
                  eq_refl eq_refl)).
Defined.

End MorePathProperties.
